(** * Functional RMSprop optimizer (torch/distributed/optim/functional_rmsprop.py)

    A shallow embedding of the class [_FunctionalRMSprop]: its constructor and
    its [step] method, over a store of tensor objects that are mutated in
    place, followed by the properties of the optimizer state life cycle.

    Tensor elements and the Python floats of the configuration are taken from
    a numeric interface, so that one model serves the executable binary64
    instance and the exact real-number instance. The step counter is a
    single-precision scalar in both. *)

From Stdlib Require Import Reals Lra Floats.
From stdpp Require Import gmap strings list functions pretty.

Set Default Proof Using "Type*".

(** ** The numeric interface *)

(** What the optimizer asks of numbers: the constants 0 and 1, the four
    operations, square root, and the two tests the code makes on its
    configuration ([momentum > 0] and [weight_decay != 0]). *)
Class Numeric (A : Type) := {
  num_zero : A;
  num_one : A;
  num_add : A → A → A;
  num_sub : A → A → A;
  num_mul : A → A → A;
  num_div : A → A → A;
  num_sqrt : A → A;
  num_gt0 : A → bool;
  num_ne0 : A → bool;
}.

Declare Scope num_scope.
Delimit Scope num_scope with num.
Notation "x + y" := (num_add x y) : num_scope.
Notation "x - y" := (num_sub x y) : num_scope.
Notation "x * y" := (num_mul x y) : num_scope.
Notation "x / y" := (num_div x y) : num_scope.

(** Binary64 floating point, the executable instance. *)
#[export] Instance float_numeric : Numeric float := {|
  num_zero := 0%float;
  num_one := 1%float;
  num_add := PrimFloat.add;
  num_sub := PrimFloat.sub;
  num_mul := PrimFloat.mul;
  num_div := PrimFloat.div;
  num_sqrt := PrimFloat.sqrt;
  num_gt0 := fun x => PrimFloat.ltb 0%float x;
  num_ne0 := fun x => negb (PrimFloat.eqb x 0%float);
|}.

(** Exact real arithmetic, the instance in which the update rule is read as
    the mathematics it implements. *)
#[export] Instance real_numeric : Numeric R := {|
  num_zero := 0%R;
  num_one := 1%R;
  num_add := Rplus;
  num_sub := Rminus;
  num_mul := Rmult;
  num_div := Rdiv;
  num_sqrt := R_sqrt.sqrt;
  num_gt0 := fun x => if Rlt_dec 0 x then true else false;
  num_ne0 := fun x => if Req_dec_T x 0 then false else true;
|}.

(** ** Single precision *)

(** [torch.tensor(0.0)] is a float32 scalar, whatever the element type of the
    parameters. Single-precision numbers and their addition are those of the
    IEEE 754 specification of the Standard Library, at precision 24 and
    maximal exponent 128, rounding to nearest with ties to even. *)
Definition float32 : Type := spec_float.
Definition f32_zero : float32 := S754_zero false.
Definition f32_one : float32 := SFone 24 128.
Definition f32_add : float32 → float32 → float32 := SFadd 24 128.

(** The float32 nearest to an integer. *)
Definition float32_of_Z (z : Z) : float32 := binary_normalize 24 128 z 0 false.

(** The integer that a float32 holds, if it holds one: mantissa times two
    to the exponent. *)
Definition float32_value (c : float32) : option Z :=
  match c with
  | S754_zero _ => Some 0%Z
  | S754_finite s m e =>
      let v := if s then Z.neg m else Z.pos m in
      match e with
      | Z0 => Some v
      | Z.pos k => Some (v * 2 ^ Z.pos k)%Z
      | Z.neg k => if decide (v `mod` 2 ^ Z.pos k = 0)%Z
                   then Some (v `div` 2 ^ Z.pos k)%Z else None
      end
  | _ => None
  end.

(** The first integer that float32 cannot tell from its successor. *)
Definition f32_limit : Z := 16777216.

(** ** Exceptions and the store *)

(** The identity of a tensor object: what Python hashes when a tensor is a
    dictionary key, and what [is] compares. *)
Definition ident := positive.

Inductive exn :=
  | ValueError (msg : string)
  | IndexError
  | KeyError
  | RuntimeError.

(** A reference to a tensor object that [step] hands to [F.rmsprop]: a tensor
    object of the caller (a parameter or a gradient), or the tensor stored
    under [key] in the state record of [owner]. The tensors of a state record
    are allocated by [step] itself and are reachable through that record
    only, so the path names the object. *)
Inductive ref :=
  | Obj (t : ident)
  | Slot (owner : ident) (key : string).

(** A buffer of elements; the shape of a tensor is the length of its
    buffer. *)
Abbreviation tensor := list (only parsing).

(** A value of a state record, [Dict[str, Tensor]]: the step counter, a
    float32 scalar, or a tensor of the parameters' element type. *)
Inductive entry (A : Type) :=
  | Counter (c : float32)
  | Buffer (t : tensor A).
Arguments Counter {A} c.
Arguments Buffer {A} t.

Declare Scope py_scope.
Delimit Scope py_scope with py.
Reserved Notation "'do' x ← m ; k"
  (at level 10, x name, m at level 100, k at level 200,
   format "'[v' 'do'  x  ←  m ; '/' k ']'").
Reserved Notation "m ;; k" (at level 100, k at level 200, right associativity).

Section Model.
Context {A : Type} `{Numeric A}.

Local Abbreviation tensor := (tensor A).
Local Abbreviation entry := (entry A).

(** [self.defaults] *)
Record Defaults := {
  lr : A;
  alpha : A;
  eps : A;
  weight_decay : A;
  momentum : A;
}.

(** The attributes of a [_FunctionalRMSprop] object. [param_group] is the
    list under the key "params"; it holds the parameter tensors by identity.
    [state] is [Dict[Tensor, Dict[str, Tensor]]]: keyed by tensor identity,
    each record keyed by name. *)
Record FunctionalRMSprop := {
  defaults : Defaults;
  centered : bool;
  param_group : list ident;
  state : gmap ident (gmap string entry);
}.

(** The world a call runs in: the optimizer object and the contents of the
    tensor objects that live outside it (the parameters, and the gradients
    that the caller passes). Every identity denotes an object, so [buffers]
    is total. *)
Record world := {
  self : FunctionalRMSprop;
  buffers : ident → tensor;
}.

(** A computation either returns or raises; in both cases the in-place
    mutations made so far stay. *)
Definition M (X : Type) : Type := world → (exn + X) * world.

Definition ret {X} (x : X) : M X := λ w, (inr x, w).
Definition raise {X} (e : exn) : M X := λ w, (inl e, w).
Definition bind {X Y} (m : M X) (k : X → M Y) : M Y :=
  λ w, match m w with
       | (inl e, w') => (inl e, w')
       | (inr x, w') => k x w'
       end.

Local Notation "'do' x ← m ; k" := (bind m (λ x, k)).
Local Notation "m ;; k" := (bind m (λ _, k)).

(** *** Access to the optimizer state *)

Definition set_state (st : gmap ident (gmap string entry)) (w : world) : world :=
  {| self := {| defaults := defaults (self w);
                centered := centered (self w);
                param_group := param_group (self w);
                state := st |};
     buffers := buffers w |}.

(** [param in self.state] *)
Definition has_state (param : ident) : M bool :=
  λ w, (inr (bool_decide (is_Some (state (self w) !! param))), w).

(** [self.state[param] = {}] *)
Definition new_record (param : ident) : M unit :=
  λ w, (inr tt, set_state (<[param := ∅]> (state (self w))) w).

(** [self.state[param][key] = v], on a record that exists *)
Definition store_key (param : ident) (key : string) (v : entry) : M unit :=
  λ w, (inr tt, set_state (alter (insert key v) param (state (self w))) w).

(** [self.state[param][key]]: Python raises [KeyError] on a missing key. *)
Definition load_key (param : ident) (key : string) : M entry :=
  λ w, match state (self w) !! param with
       | None => (inl KeyError, w)
       | Some d => match d !! key with
                   | None => (inl KeyError, w)
                   | Some v => (inr v, w)
                   end
       end.

(** The buffer of an entry that [F.rmsprop] is handed. The local lists name
    entries that the loop has just looked up and that hold buffers, so the
    default is never taken. *)
Definition buffer_of (o : option entry) : tensor :=
  match o with
  | Some (Buffer t) => t
  | _ => []
  end.

(** The contents of the tensor a reference denotes. *)
Definition deref (w : world) (r : ref) : tensor :=
  match r with
  | Obj t => buffers w t
  | Slot p key => buffer_of (state (self w) !! p ≫= (.!! key))
  end.

(** In-place assignment to the tensor a reference denotes. *)
Definition assign (r : ref) (t : tensor) (w : world) : world :=
  match r with
  | Obj p => {| self := self w; buffers := <[p := t]> (buffers w) |}
  | Slot p key =>
      set_state (alter (alter (λ _, Buffer t) key) p (state (self w))) w
  end.

Definition read (r : ref) : M tensor := λ w, (inr (deref w r), w).
Definition write (r : ref) (t : tensor) : M unit := λ w, (inr tt, assign r t w).

(** *** Tensor arithmetic, element by element *)

Definition zeros_like (t : tensor) : tensor := (λ _, num_zero) <$> t.
Definition t_scale (c : A) (t : tensor) : tensor := num_mul c <$> t.
Definition t_add_scalar (t : tensor) (c : A) : tensor := (λ x, num_add x c) <$> t.
Definition t_add (s t : tensor) : tensor := zip_with num_add s t.
Definition t_sub (s t : tensor) : tensor := zip_with num_sub s t.
Definition t_mul (s t : tensor) : tensor := zip_with num_mul s t.
Definition t_div (s t : tensor) : tensor := zip_with num_div s t.
Definition t_sqrt (t : tensor) : tensor := num_sqrt <$> t.

(** *** Shapes *)

(** A tensor is the list of its elements and its shape is the length of the
    list: the tensors of this model have one dimension. The tensor library
    expands an operand of one element to the shape of the other operand
    (broadcasting); on two shapes that differ otherwise it raises a
    [RuntimeError]. *)
Definition expand (n : nat) (t : tensor) : tensor :=
  if bool_decide (length t = n) then t
  else replicate n (default num_zero (head t)).

(** An operand of an in-place operation on a tensor of [n] elements: the
    result has the shape of the tensor written to, so the operand has that
    shape or one element. *)
Definition broadcast_to (n : nat) (t : tensor) : M tensor :=
  if bool_decide (length t = n ∨ length t = 1) then ret (expand n t)
  else raise RuntimeError.

(** The two operands of an operation that returns a new tensor. *)
Definition broadcast (s t : tensor) : M (tensor * tensor) :=
  if bool_decide (length s = length t) then ret (s, t)
  else if bool_decide (length t = 1) then ret (s, expand (length s) t)
  else if bool_decide (length s = 1) then ret (expand (length t) s, t)
  else raise RuntimeError.

(** [v += 1] on a tensor of a state record, in the arithmetic of its own
    element type. *)
Definition add_one (v : entry) : entry :=
  match v with
  | Counter c => Counter (f32_add c f32_one)
  | Buffer t => Buffer (t_add_scalar t num_one)
  end.

(** *** The constructor *)

(** [__init__]: the attributes are assigned, then the empty list is refused;
    an exception leaves the caller without an object. *)
Definition __init__ (params : list ident)
    (lr alpha eps weight_decay momentum : A) (centered : bool)
  : exn + FunctionalRMSprop :=
  let defaults := {| lr := lr; alpha := alpha; eps := eps;
                     weight_decay := weight_decay; momentum := momentum |} in
  if bool_decide (length params = 0) then
    inl (ValueError "optimizer got an empty parameter list")
  else
    inr {| defaults := defaults; centered := centered;
           param_group := params; state := ∅ |}.

(** *** The loop of [step] *)

(** The four local lists that [step] fills and hands to [F.rmsprop]. They
    hold tensor objects, not copies: the gradients are the caller's objects,
    the other three lists hold tensors of the state records. *)
Record locals := {
  grads : list ident;
  square_avgs : list ref;
  grad_avgs : list ref;
  momentum_buffer_list : list ref;
}.

Definition get_self : M FunctionalRMSprop := λ w, (inr (self w), w).

(** Lazy state initialization, the body of [if param not in self.state]. *)
Definition lazy_init (momentum : A) (param : ident) : M unit :=
  new_record param;;
  store_key param "step" (Counter f32_zero);;
  do p ← read (Obj param);
  store_key param "square_avg" (Buffer (zeros_like p));;
  (if num_gt0 momentum
   then store_key param "momentum_buffer" (Buffer (zeros_like p))
   else ret tt);;
  do this ← get_self;
  if centered this
  then store_key param "grad_avg" (Buffer (zeros_like p)) else ret tt.

(** One iteration of [for param, gradient in zip(params, gradients)]. *)
Definition loop_body (momentum : A) (param : ident) (gradient : option ident)
    (l : locals) : M locals :=
  match gradient with
  | None => ret l
  | Some gradient =>
      let grads := grads l ++ [gradient] in
      do known ← has_state param;
      (if known then ret tt else lazy_init momentum param);;
      do _ ← load_key param "square_avg";
      let square_avgs := square_avgs l ++ [Slot param "square_avg"] in
      do momentum_buffer_list ←
        (if num_gt0 momentum
         then do _ ← load_key param "momentum_buffer";
              ret (momentum_buffer_list l ++ [Slot param "momentum_buffer"])
         else ret (momentum_buffer_list l));
      do this ← get_self;
      do grad_avgs ←
        (if centered this
         then do _ ← load_key param "grad_avg";
              ret (grad_avgs l ++ [Slot param "grad_avg"])
         else ret (grad_avgs l));
      do n ← load_key param "step";
      store_key param "step" (add_one n);;
      ret {| grads := grads; square_avgs := square_avgs;
             grad_avgs := grad_avgs;
             momentum_buffer_list := momentum_buffer_list |}
  end.

Fixpoint for_each (momentum : A) (pairs : list (ident * option ident))
    (l : locals) : M locals :=
  match pairs with
  | [] => ret l
  | (param, gradient) :: pairs =>
      do l ← loop_body momentum param gradient l;
      for_each momentum pairs l
  end.

(** *** The update rule *)

(** [xs[i]] on a Python list *)
Definition index {X} (xs : list X) (i : nat) : M X :=
  match xs !! i with
  | Some x => ret x
  | None => raise IndexError
  end.

(** Modelled from the spec: the formulas of [torch.optim._functional.rmsprop],
    which is not among the sources, as the spec's steps 3 to 6 of the step
    operation give them, element by element. *)
Definition effective_gradient (weight_decay : A) (grad p : tensor) : tensor :=
  if num_ne0 weight_decay then t_add grad (t_scale weight_decay p) else grad.

Definition next_square_avg (alpha : A) (square_avg grad : tensor) : tensor :=
  t_add (t_scale alpha square_avg)
        (t_scale (num_one - alpha)%num (t_mul grad grad)).

Definition next_grad_avg (alpha : A) (grad_avg grad : tensor) : tensor :=
  t_add (t_scale alpha grad_avg) (t_scale (num_one - alpha)%num grad).

Definition normalizer (eps : A) (square_avg : tensor) : tensor :=
  t_add_scalar (t_sqrt square_avg) eps.

Definition centered_normalizer (eps : A) (square_avg grad_avg : tensor)
  : tensor :=
  t_add_scalar (t_sqrt (t_sub square_avg (t_mul grad_avg grad_avg))) eps.

Definition next_momentum_buffer (momentum : A) (buf grad avg : tensor)
  : tensor :=
  t_add (t_scale momentum buf) (t_div grad avg).

Definition momentum_update (lr : A) (p buf : tensor) : tensor :=
  t_sub p (t_scale lr buf).

Definition plain_update (lr : A) (p grad avg : tensor) : tensor :=
  t_sub p (t_div (t_scale lr grad) avg).

(** Modelled from the spec: [torch.optim._functional.rmsprop], which [step]
    calls as [F.rmsprop], is not among the sources. It applies the spec's
    steps 3 to 7 to the tensors it is given and writes the results in place.
    It receives parallel lists and takes the entries of one position
    together, walking the list of parameters; reading a position that a list
    does not have raises, as indexing a Python list does. The tensors are
    read when their position is reached, so a gradient that is one of the
    parameter objects is read as an earlier position has left it. The spec
    gives the formulas for operands of one shape; on other shapes the
    operations behave as those of the tensor library do: the effective
    gradient and the centered difference are new tensors, every other result
    is written into the buffer or the parameter it updates and keeps that
    shape. Each formula is taken as one operation, which raises before it
    writes when its operands do not fit. *)
Definition rmsprop_body (i : nat) (param : ref) (grads : list ident)
    (square_avgs grad_avgs momentum_buffer_list : list ref)
    (lr alpha eps weight_decay momentum : A) (centered : bool) : M unit :=
  do grad ← index grads i;
  do square_avg ← index square_avgs i;
  do p ← read param;
  do g ← read (Obj grad);
  do gp ← (if num_ne0 weight_decay then broadcast g p else ret (g, p));
  let grad := effective_gradient weight_decay gp.1 gp.2 in
  do sq ← read square_avg;
  do grad_sq ← broadcast_to (length sq) grad;
  let sq := next_square_avg alpha sq grad_sq in
  write square_avg sq;;
  do avg ←
    (if centered
     then do grad_avg ← index grad_avgs i;
          do ga ← read grad_avg;
          do grad_ga ← broadcast_to (length ga) grad;
          let ga := next_grad_avg alpha ga grad_ga in
          write grad_avg ga;;
          do sg ← broadcast sq ga;
          ret (centered_normalizer eps sg.1 sg.2)
     else ret (normalizer eps sq));
  if num_gt0 momentum
  then do buf ← index momentum_buffer_list i;
       do b ← read buf;
       do grad_b ← broadcast_to (length b) grad;
       do avg_b ← broadcast_to (length b) avg;
       let b := next_momentum_buffer momentum b grad_b avg_b in
       write buf b;;
       do b_p ← broadcast_to (length p) b;
       write param (momentum_update lr p b_p)
  else do grad_p ← broadcast_to (length p) grad;
       do avg_p ← broadcast_to (length p) avg;
       write param (plain_update lr p grad_p avg_p).

(** [for i, param in enumerate(params)] *)
Fixpoint rmsprop_from (i : nat) (params : list ref) (grads : list ident)
    (square_avgs grad_avgs momentum_buffer_list : list ref)
    (lr alpha eps weight_decay momentum : A) (centered : bool) : M unit :=
  match params with
  | [] => ret tt
  | param :: params =>
      rmsprop_body i param grads square_avgs grad_avgs momentum_buffer_list
        lr alpha eps weight_decay momentum centered;;
      rmsprop_from (S i) params grads square_avgs grad_avgs
        momentum_buffer_list lr alpha eps weight_decay momentum centered
  end.

Definition rmsprop := rmsprop_from 0.

(** *** [step] *)

Definition mismatch_message (nparams ngradients : nat) : string :=
  "the gradients passed in does not equal to the size of the parameters!"
  +:+ "Params length: " +:+ pretty nparams +:+ ". "
  +:+ "Gradients length: " +:+ pretty ngradients.

(** [step]: a gradient is a tensor object of the caller or [None]. *)
Definition step (gradients : list (option ident)) : M unit :=
  do this ← get_self;
  let params := param_group this in
  let lr := lr (defaults this) in
  let alpha := alpha (defaults this) in
  let eps := eps (defaults this) in
  let momentum := momentum (defaults this) in
  let weight_decay := weight_decay (defaults this) in
  if bool_decide (length params ≠ length gradients) then
    raise (ValueError (mismatch_message (length params) (length gradients)))
  else
    do l ← for_each momentum (zip params gradients)
             {| grads := []; square_avgs := []; grad_avgs := [];
                momentum_buffer_list := [] |};
    do this ← get_self;
    rmsprop (Obj <$> params) (grads l) (square_avgs l) (grad_avgs l)
      (momentum_buffer_list l) lr alpha eps weight_decay momentum
      (centered this).

(** The world after a call, whether it returned or raised. *)
Definition after (gradients : list (option ident)) (w : world) : world :=
  (step gradients w).2.

(** The world after a sequence of calls. *)
Definition run (calls : list (list (option ident))) (w : world) : world :=
  foldl (λ w gradients, after gradients w) w calls.

(** *** Views of the state used to state the properties *)

(** The step counter of a parameter, if it has a state record. *)
Definition counter (w : world) (p : ident) : option entry :=
  state (self w) !! p ≫= (.!! "step").

(** The slots of one call that hold parameter [p] and a present gradient. *)
Definition slot_hits (p : ident) (params : list ident)
    (gradients : list (option ident)) : nat :=
  length (filter (λ pg, pg.1 = p ∧ is_Some pg.2) (zip params gradients)).

(** The same over a sequence of calls; a call whose list has the wrong
    length is refused before the loop and counts for nothing. *)
Definition hits (p : ident) (params : list ident)
    (calls : list (list (option ident))) : nat :=
  sum_list ((λ gradients,
               if bool_decide (length params = length gradients)
               then slot_hits p params gradients else 0) <$> calls).

(** The calls that pass the length check and give [p] a present gradient. *)
Definition calls_present (p : ident) (params : list ident)
    (calls : list (list (option ident))) : nat :=
  length (filter (λ gradients,
                    length params = length gradients
                    ∧ Exists (λ pg, pg.1 = p ∧ is_Some pg.2)
                             (zip params gradients)) calls).

(** The record that the lazy initialization leaves for a parameter whose
    buffer is [p]. *)
Definition fresh_record (momentum : A) (centered : bool) (p : tensor)
  : gmap string entry :=
  let d := <["square_avg" := Buffer (zeros_like p)]>
             (<["step" := Counter f32_zero]> ∅) in
  let d := if num_gt0 momentum
           then <["momentum_buffer" := Buffer (zeros_like p)]> d else d in
  if centered then <["grad_avg" := Buffer (zeros_like p)]> d else d.

(** One increment of a step counter that may not exist yet: the lazy
    initialization starts it at 0. *)
Definition incr (o : option entry) : option entry :=
  Some (add_one (default (Counter f32_zero) o)).

(** The state mapping after one iteration of the loop on [param] with a
    present gradient, as a function of the mapping before it. *)
Definition visited (momentum : A) (centered : bool) (p : tensor)
    (param : ident) (st : gmap ident (gmap string entry))
  : gmap ident (gmap string entry) :=
  let d := default (fresh_record momentum centered p) (st !! param) in
  <[param := <["step" := add_one (default (Counter f32_zero) (d !! "step"))]> d]>
    st.

(** The local lists after that iteration. *)
Definition pushed (momentum : A) (centered : bool) (param : ident)
    (gradient : ident) (l : locals) : locals :=
  {| grads := grads l ++ [gradient];
     square_avgs := square_avgs l ++ [Slot param "square_avg"];
     grad_avgs := if centered then grad_avgs l ++ [Slot param "grad_avg"]
                  else grad_avgs l;
     momentum_buffer_list :=
       if num_gt0 momentum
       then momentum_buffer_list l ++ [Slot param "momentum_buffer"]
       else momentum_buffer_list l |}.

(** A state record has the keys the loop reads. *)
Definition record_ok (momentum : A) (centered : bool)
    (d : gmap string entry) : Prop :=
  is_Some (d !! "step") ∧ is_Some (d !! "square_avg")
  ∧ (is_Some (d !! "momentum_buffer") ↔ num_gt0 momentum = true)
  ∧ (is_Some (d !! "grad_avg") ↔ centered = true).

Definition state_ok (w : world) : Prop :=
  ∀ p d, state (self w) !! p = Some d →
         record_ok (momentum (defaults (self w))) (centered (self w)) d.

(** Every entry of a state record other than the counter is a buffer with
    the shape of the parameter of the record. *)
Definition shaped (w : world) : Prop :=
  ∀ p d key v, state (self w) !! p = Some d → d !! key = Some v →
               key ≠ "step" →
               ∃ t, v = Buffer t ∧ length t = length (buffers w p).

(** One pair of the loop, absent gradients included, on the state mapping
    and on the local lists. *)
Definition visit_pair (momentum : A) (centered : bool)
    (bufs : ident → tensor) (st : gmap ident (gmap string entry))
    (pg : ident * option ident) : gmap ident (gmap string entry) :=
  match pg.2 with
  | Some _ => visited momentum centered (bufs pg.1) pg.1 st
  | None => st
  end.

Definition push_pair (momentum : A) (centered : bool) (l : locals)
    (pg : ident * option ident) : locals :=
  match pg.2 with
  | Some g => pushed momentum centered pg.1 g l
  | None => l
  end.

(** Every record of a state mapping has the keys the loop reads. *)
Definition all_ok (momentum : A) (centered : bool)
    (st : gmap ident (gmap string entry)) : Prop :=
  ∀ p d, st !! p = Some d → record_ok momentum centered d.

(** [w'] comes from [w] by in-place assignments to tensors that satisfy
    [S]; an assignment keeps the shape of the tensor. *)
Inductive writes_to (S : ref → Prop) : world → world → Prop :=
  | writes_nil w : writes_to S w w
  | writes_snoc w w' r t :
      writes_to S w w' → S r → length t = length (deref w' r) →
      writes_to S w (assign r t w').

(** A computation whose effect on the world is within the relation [R]. *)
Definition respects {X} (R : world → world → Prop) (m : M X) : Prop :=
  ∀ w, R w (m w).2.

(** A computation that, started in a world reached from [w0] by such
    assignments, ends in one, and whose result, if it returns, satisfies
    [Φ]. *)
Definition tracks {X} (S : ref → Prop) (w0 : world) (m : M X)
    (Φ : X → Prop) : Prop :=
  ∀ w, writes_to S w0 w →
       writes_to S w0 (m w).2 ∧ ∀ x, (m w).1 = inr x → Φ x.

(** A reference that is not a step counter. *)
Definition not_step (r : ref) : Prop :=
  match r with Slot _ key => key ≠ "step" | Obj _ => True end.

(** The references held by the local lists. *)
Definition list_refs (l : locals) : list ref :=
  square_avgs l ++ grad_avgs l ++ momentum_buffer_list l.

Definition no_locals : locals :=
  {| grads := []; square_avgs := []; grad_avgs := [];
     momentum_buffer_list := [] |}.


(** *** Two runs *)








(** *** Further views of a call *)

(** A world that an optimizer can be in: built by [__init__], then used by
    any sequence of calls of [step]. *)
Definition reachable (w : world) : Prop :=
  ∃ params lr alpha eps weight_decay momentum centered o bufs calls,
    __init__ params lr alpha eps weight_decay momentum centered = inr o
    ∧ w = run calls {| self := o; buffers := bufs |}.

(** The update raises no exception but its two: that of an index out of
    range and that of two shapes that do not fit. *)
Definition update_errors {X} (m : M X) : Prop :=
  ∀ w, match (m w).1 with
       | inl e => e = IndexError ∨ e = RuntimeError
       | inr _ => True
       end.

(** The pairs of a call whose gradient is present, in list order. *)
Definition with_grad (pairs : list (ident * option ident))
  : list (ident * ident) :=
  omap (λ pg, (λ g, (pg.1, g)) <$> pg.2) pairs.

(** The update of one parameter as a function: from the contents [p] of the
    parameter, a state record [d] and the contents [g] of the gradient to
    the new contents and the new record. The formulas and their order are
    those of one position of [rmsprop_from]. *)
Definition update_one (cfg : Defaults) (centered : bool) (p : tensor)
    (d : gmap string entry) (g : tensor) : tensor * gmap string entry :=
  let grad := effective_gradient (weight_decay cfg) g p in
  let sq := next_square_avg (alpha cfg) (buffer_of (d !! "square_avg")) grad in
  let d := alter (λ _, Buffer sq) "square_avg" d in
  let ga := next_grad_avg (alpha cfg) (buffer_of (d !! "grad_avg")) grad in
  let avg := if centered then centered_normalizer (eps cfg) sq ga
             else normalizer (eps cfg) sq in
  let d := if centered then alter (λ _, Buffer ga) "grad_avg" d else d in
  let b := next_momentum_buffer (momentum cfg)
             (buffer_of (d !! "momentum_buffer")) grad avg in
  if num_gt0 (momentum cfg)
  then (momentum_update (lr cfg) p b,
        alter (λ _, Buffer b) "momentum_buffer" d)
  else (plain_update (lr cfg) p grad avg, d).

(** The world after one position of [rmsprop_from], when the references at
    that position are parameter [q] and the tensors of the record of
    [owner], and the gradient holds [g]. *)
Definition apply_update_at (cfg : Defaults) (centered : bool)
    (q owner : ident) (g : tensor) (w : world) : world :=
  let p := buffers w q in
  let grad := effective_gradient (weight_decay cfg) g p in
  let sq := next_square_avg (alpha cfg)
              (deref w (Slot owner "square_avg")) grad in
  let w := assign (Slot owner "square_avg") sq w in
  let ga := next_grad_avg (alpha cfg) (deref w (Slot owner "grad_avg")) grad in
  let avg := if centered then centered_normalizer (eps cfg) sq ga
             else normalizer (eps cfg) sq in
  let w := if centered then assign (Slot owner "grad_avg") ga w else w in
  let b := next_momentum_buffer (momentum cfg)
             (deref w (Slot owner "momentum_buffer")) grad avg in
  if num_gt0 (momentum cfg)
  then assign (Obj q) (momentum_update (lr cfg) p b)
         (assign (Slot owner "momentum_buffer") b w)
  else assign (Obj q) (plain_update (lr cfg) p grad avg) w.

(** The record of a parameter when [F.rmsprop] is called: the record it had
    before the call, or the freshly initialized one, with the counter
    incremented. *)
Definition record_at_update (w : world) (o : ident) : gmap string entry :=
  let d := default (fresh_record (momentum (defaults (self w)))
                      (centered (self w)) (buffers w o))
                   (state (self w) !! o) in
  <["step" := add_one (default (Counter f32_zero) (d !! "step"))]> d.

End Model.

Arguments Defaults A : clear implicits.
Arguments FunctionalRMSprop A : clear implicits.
Arguments world A : clear implicits.
Arguments M A X : clear implicits.

Notation "'do' x ← m ; k" := (bind m (λ x, k)) : py_scope.
Notation "m ;; k" := (bind m (λ _, k)) : py_scope.

(** ** Concrete optimizers, in binary64 *)

(** The tensor objects of the examples: two scalar parameters, 1.0 and 8.0,
    and the gradients that the caller holds, 4.0, 2.0 and 1.0; every other
    identity denotes a tensor holding 0.0. *)
Definition example_tensors (t : ident) : list float :=
  if decide (t = 1%positive) then [1%float]
  else if decide (t = 2%positive) then [8%float]
  else if decide (t = 3%positive) then [4%float]
  else if decide (t = 4%positive) then [2%float]
  else if decide (t = 5%positive) then [1%float]
  else [0%float].

(** The two parameters with lr 0.5, alpha 0.75, eps 1, no weight decay, no
    momentum, not centered, before the first call. *)
Definition two_parameters : world float :=
  {| self := {| defaults := {| lr := 0.5; alpha := 0.75; eps := 1;
                               weight_decay := 0; momentum := 0 |}%float;
                centered := false;
                param_group := [1%positive; 2%positive];
                state := ∅ |};
     buffers := example_tensors |}.

(** The same two tensors, with momentum 0.5 and centering. *)
Definition with_momentum : world float :=
  {| self := {| defaults := {| lr := 0.5; alpha := 0.75; eps := 1;
                               weight_decay := 0; momentum := 0.5 |}%float;
                centered := true;
                param_group := [1%positive; 2%positive];
                state := ∅ |};
     buffers := example_tensors |}.

(** The spec's numerical example: one parameter 1.0, lr 0.01, alpha 0.99,
    eps 1e-8, the decimal constants rounded to binary64 by division; the
    gradients 2.0 (object 4) and 0.0 (object 6) are at hand. *)
Definition spec_example : world float :=
  {| self := {| defaults := {| lr := 1 / 100; alpha := 99 / 100;
                               eps := 1 / 100000000;
                               weight_decay := 0; momentum := 0 |}%float;
                centered := false;
                param_group := [1%positive];
                state := ∅ |};
     buffers := example_tensors |}.


(** The first parameter listed twice. *)
Definition repeated_parameter : world float :=
  {| self := {| defaults := {| lr := 0.5; alpha := 0.75; eps := 1;
                               weight_decay := 0; momentum := 0 |}%float;
                centered := false;
                param_group := [1%positive; 1%positive];
                state := ∅ |};
     buffers := example_tensors |}.

(** Tensors of more than one element: a parameter [1; 2] (object 1) and a
    parameter [1; 2; 3] (object 2), and the gradients [2] (object 3),
    [5; 6] (object 4) and [2; 2; 2] (object 5). *)
Definition vector_tensors (t : ident) : list float :=
  if decide (t = 1%positive) then [1; 2]%float
  else if decide (t = 2%positive) then [1; 2; 3]%float
  else if decide (t = 3%positive) then [2%float]
  else if decide (t = 4%positive) then [5; 6]%float
  else if decide (t = 5%positive) then [2; 2; 2]%float
  else [].

Definition vectors : world float :=
  {| self := self two_parameters; buffers := vector_tensors |}.

(** ** A concrete optimizer, in exact arithmetic *)

(** The two scalar parameters 1 and 8 and the gradients 4 and 2 of
    [two_parameters], as real numbers. *)
Definition real_tensors (t : ident) : list R :=
  if decide (t = 1%positive) then [1%R]
  else if decide (t = 2%positive) then [8%R]
  else if decide (t = 3%positive) then [4%R]
  else if decide (t = 4%positive) then [2%R]
  else [0%R].

Definition real_parameters : world R :=
  {| self := {| defaults := {| lr := 0.5; alpha := 0.75; eps := 1;
                               weight_decay := 0; momentum := 0 |}%R;
                centered := false;
                param_group := [1%positive; 2%positive];
                state := ∅ |};
     buffers := real_tensors |}.

Open Scope py_scope.

(** * Single-precision counting *)

Section Single.
Local Open Scope Z_scope.

(** [q] shifted left by [k] bits. *)
Local Abbreviation shl q k := (Nat.iter k xO q).

Lemma iter_xO_nat (q p : positive) : Pos.iter xO q p = shl q (Pos.to_nat p).
Proof. apply Pos2Nat.inj_iter. Qed.

Lemma iter_pos_nat {X} (f : X → X) (p : positive) (x : X) :
  @SpecFloat.iter_pos X f p x = Nat.iter (Pos.to_nat p) f x.
Proof.
  revert x. induction p as [p IH|p IH|]; intros x; cbn [SpecFloat.iter_pos].
  - rewrite !IH, Pos2Nat.inj_xI, <-Nat.iter_add.
    replace (S (2 * Pos.to_nat p)) with (S (Pos.to_nat p + Pos.to_nat p)) by lia.
    by rewrite Nat.iter_succ_r.
  - rewrite !IH, Pos2Nat.inj_xO, <-Nat.iter_add. f_equal. lia.
  - done.
Qed.

Lemma digits_shl (q : positive) (k : nat) :
  Z.pos (digits2_pos (shl q k)) = Z.pos (digits2_pos q) + Z.of_nat k.
Proof.
  induction k as [|k IH]; [simpl; lia|].
  change (shl q (S k)) with (xO (shl q k)). simpl digits2_pos. lia.
Qed.

Lemma shl_value (q : positive) (k : nat) :
  Z.pos (shl q k) = Z.pos q * 2 ^ Z.of_nat k.
Proof.
  induction k as [|k IH]; [simpl; lia|].
  change (shl q (S k)) with (xO (shl q k)).
  rewrite Pos2Z.inj_xO, IH, Nat2Z.inj_succ, Z.pow_succ_r by lia. lia.
Qed.

Lemma shr_shl (q : positive) (k j : nat) :
  Nat.iter k shr_1 {| shr_m := Z.pos (shl q (k + j)); shr_r := false;
                      shr_s := false |}
  = {| shr_m := Z.pos (shl q j); shr_r := false; shr_s := false |}.
Proof.
  revert j. induction k as [|k IH]; intros j; [done|].
  replace (S k + j)%nat with (k + S j)%nat by lia.
  change (Nat.iter (S k) shr_1 ?x) with (shr_1 (Nat.iter k shr_1 x)).
  by rewrite IH.
Qed.

Lemma digits2_size (q : positive) : digits2_pos q = Pos.size q.
Proof.
  induction q as [q' IH|q' IH|]; simpl;
    [exact (f_equal Pos.succ IH)..|reflexivity].
Qed.

Lemma digits_bound (q : positive) :
  Z.pos q < f32_limit → Z.pos (digits2_pos q) ≤ 24.
Proof.
  intros Hq. rewrite digits2_size. pose proof (Pos.size_le q) as Hle.
  apply Z.nlt_ge. intros Hlt.
  assert (2 ^ 25 ≤ 2 ^ Z.pos (Pos.size q)) by (apply Z.pow_le_mono_r; lia).
  assert (Z.pos (2 ^ Pos.size q) ≤ Z.pos q~0) by done.
  rewrite Pos2Z.inj_pow in *. unfold f32_limit in Hq. lia.
Qed.

(** A mantissa of 24 bits followed by [n] zero bits is rounded to itself. *)
Lemma round_aux_exact (m : positive) (e : Z) (n : nat) :
  Z.pos (digits2_pos m) = 24 → -149 ≤ e + Z.of_nat n ≤ 104 →
  binary_round_aux 24 128 false (Z.pos (shl m n)) e loc_Exact
  = S754_finite false m (e + Z.of_nat n).
Proof.
  intros Hm He. unfold binary_round_aux, shr_fexp, Zdigits2.
  rewrite digits_shl, Hm.
  assert (Hf : ∀ x, -149 ≤ x → fexp 24 128 (24 + x) = x).
  { intros x Hx. unfold fexp, emin. lia. }
  replace (24 + Z.of_nat n + e) with (24 + (e + Z.of_nat n)) by lia.
  rewrite Hf by lia.
  replace (e + Z.of_nat n - e) with (Z.of_nat n) by lia.
  assert (Hshr : shr (shr_record_of_loc (Z.pos (shl m n)) loc_Exact) e
                   (Z.of_nat n)
                 = ({| shr_m := Z.pos m; shr_r := false; shr_s := false |},
                    e + Z.of_nat n)).
  { destruct n as [|n]; [simpl; f_equal; lia|].
    change (Z.of_nat (S n)) with (Z.pos (Pos.of_succ_nat n)).
    unfold shr. rewrite iter_pos_nat, SuccNat2Pos.id_succ.
    change (shr_record_of_loc ?x loc_Exact)
      with {| shr_m := x; shr_r := false; shr_s := false |}.
    pose proof (shr_shl m (S n) 0) as Hs. rewrite Nat.add_0_r in Hs.
    by rewrite Hs. }
  rewrite Hshr. cbn [shr_m loc_of_shr_record round_nearest_even].
  rewrite Hm, Hf by lia. rewrite Z.sub_diag. cbn [shr shr_record_of_loc shr_m].
  destruct (Z.leb_spec (e + Z.of_nat n) (128 - 24)); [done|lia].
Qed.

(** An integer below 2^24, written with [k] more zero bits than needed, is
    rounded to the same float32 for every [k]. *)
Lemma round_shl (q : positive) (k : nat) :
  Z.pos (digits2_pos q) ≤ 24 →
  binary_round 24 128 false (shl q k) (- Z.of_nat k)
  = S754_finite false (shl q (24 - Pos.to_nat (digits2_pos q)))
      (Z.pos (digits2_pos q) - 24).
Proof.
  intros Hd. set (d := digits2_pos q) in *.
  unfold binary_round. rewrite digits_shl. fold d.
  replace (Z.pos d + Z.of_nat k + - Z.of_nat k) with (Z.pos d) by lia.
  assert (Hf : fexp 24 128 (Z.pos d) = Z.pos d - 24).
  { unfold fexp, emin. lia. }
  rewrite Hf. unfold shl_align.
  assert (Haux : ∀ n e, e + Z.of_nat n = Z.pos d - 24 →
            binary_round_aux 24 128 false
              (Z.pos (shl (shl q (24 - Pos.to_nat d)) n)) e loc_Exact
            = S754_finite false (shl q (24 - Pos.to_nat d)) (Z.pos d - 24)).
  { intros n e He. rewrite round_aux_exact; [by rewrite He| |lia].
    rewrite digits_shl. fold d. lia. }
  destruct (Z.pos d - 24 - - Z.of_nat k) as [|s|s] eqn:Es; cbv beta iota.
  - replace (shl q k) with (shl (shl q (24 - Pos.to_nat d)) 0)
      by (change (shl ?x 0) with x; f_equal; lia).
    apply Haux. simpl. lia.
  - replace (shl q k)
      with (shl (shl q (24 - Pos.to_nat d)) (k - (24 - Pos.to_nat d)))
      by (rewrite <-Nat.iter_add; f_equal; lia).
    apply Haux. lia.
  - rewrite iter_xO_nat, <-Nat.iter_add.
    replace (shl q (Pos.to_nat s + k))
      with (shl (shl q (24 - Pos.to_nat d)) 0) by (simpl; f_equal; lia).
    apply Haux. simpl. lia.
Qed.

Lemma float32_of_pos (q : positive) :
  Z.pos (digits2_pos q) ≤ 24 →
  float32_of_Z (Z.pos q)
  = S754_finite false (shl q (24 - Pos.to_nat (digits2_pos q)))
      (Z.pos (digits2_pos q) - 24).
Proof. intros Hd. apply (round_shl q 0 Hd). Qed.

(** Adding 1.0 to a float32 that holds an integer below 2^24 - 1 gives the
    float32 that holds the next integer. *)
Lemma f32_add_one_pos (q : positive) :
  Z.pos q + 1 < f32_limit →
  f32_add (float32_of_Z (Z.pos q)) f32_one = float32_of_Z (Z.pos q + 1).
Proof.
  intros Hq.
  assert (Hd : Z.pos (digits2_pos q) ≤ 24) by (apply digits_bound; lia).
  assert (Hd' : Z.pos (digits2_pos (q + 1)) ≤ 24).
  { apply digits_bound. lia. }
  rewrite float32_of_pos by done.
  change (Z.pos q + 1) with (Z.pos (q + 1)).
  rewrite float32_of_pos by done. rewrite <-(round_shl (q + 1) 23) by done.
  set (d := digits2_pos q) in *.
  change f32_one with (S754_finite false (shl 1%positive 23) (-23)).
  unfold f32_add, SFadd, cond_Zopp.
  assert (1 ≤ Z.pos d) by lia.
  rewrite Z.min_r by lia.
  replace (fst (shl_align (shl q (24 - Pos.to_nat d)) (Z.pos d - 24) (-23)))
    with (shl q 23).
  2:{ unfold shl_align. destruct (-23 - (Z.pos d - 24)) as [|s|s] eqn:Es.
      - cbn [fst]. f_equal. lia.
      - exfalso. lia.
      - cbn [fst]. rewrite iter_xO_nat, <-Nat.iter_add. f_equal. lia. }
  change (fst (shl_align (shl 1%positive 23) (-23) (-23)))
    with (shl 1%positive 23).
  unfold binary_normalize.
  assert (Hsum : Z.pos (shl q 23) + Z.pos (shl 1%positive 23)
                 = Z.pos (shl (q + 1)%positive 23)).
  { rewrite !shl_value. lia. }
  rewrite Hsum. done.
Qed.

(** Counting in float32: below 2^24 every increment is exact, and 2^24 is
    where the counter stays. *)
Lemma f32_add_one (z : Z) :
  0 ≤ z →
  f32_add (float32_of_Z (z `min` f32_limit)) f32_one
  = float32_of_Z ((z + 1) `min` f32_limit).
Proof.
  intros Hz. destruct (Z.lt_ge_cases (z + 1) f32_limit) as [Hlt|Hge].
  - rewrite !Z.min_l by lia. destruct z as [|q|q]; [done| |lia].
    by apply f32_add_one_pos.
  - rewrite (Z.min_r (z + 1)) by lia.
    destruct (Z.eq_dec (z + 1) f32_limit) as [Heq|Hne].
    + rewrite Z.min_l by lia. replace z with (f32_limit - 1) by lia.
      by vm_compute.
    + rewrite Z.min_r by lia. by vm_compute.
Qed.

Lemma f32_count (n : nat) :
  Nat.iter n (λ c, f32_add c f32_one) f32_zero
  = float32_of_Z (Z.of_nat n `min` f32_limit).
Proof.
  induction n as [|n IH]; [done|].
  simpl Nat.iter. rewrite IH, f32_add_one by lia. f_equal. lia.
Qed.

(** Up to 2^24 the float32 nearest to an integer holds that integer. *)
Lemma float32_value_of_Z (z : Z) :
  0 ≤ z ≤ f32_limit → float32_value (float32_of_Z z) = Some z.
Proof.
  intros [Hz Hlim]. destruct z as [|q|q]; [done| |lia].
  destruct (Z.eq_dec (Z.pos q) f32_limit) as [->|Hne]; [by vm_compute|].
  assert (Hd : Z.pos (digits2_pos q) ≤ 24) by (apply digits_bound; lia).
  rewrite float32_of_pos by done. set (d := digits2_pos q) in *.
  unfold float32_value.
  destruct (Z.pos d - 24) as [|k|k] eqn:Ek.
  - replace (24 - Pos.to_nat d)%nat with 0%nat by lia. done.
  - lia.
  - rewrite shl_value.
    replace (Z.of_nat (24 - Pos.to_nat d)) with (Z.pos k) by lia.
    assert (2 ^ Z.pos k ≠ 0) by (apply Z.pow_nonzero; lia).
    rewrite decide_True by (by apply Z.mod_mul).
    by rewrite Z.div_mul.
Qed.
End Single.

(** * Properties *)

Section Properties.
Context {A : Type} `{Numeric A}.
Implicit Types (w : world A) (st : gmap ident (gmap string (entry A))).
Implicit Types (d : gmap string (entry A)) (t : tensor A) (l : locals).
Implicit Types (v : entry A) (p q g param : ident).
Implicit Types (gradients : list (option ident)).
Implicit Types (calls : list (list (option ident))).

(** ** The constructor *)

Lemma init_cases (params : list ident)
    (lr alpha eps weight_decay momentum : A) (centered : bool) :
  __init__ params lr alpha eps weight_decay momentum centered =
  match params with
  | [] => inl (ValueError "optimizer got an empty parameter list")
  | _ :: _ =>
      inr {| defaults := {| lr := lr; alpha := alpha; eps := eps;
                            weight_decay := weight_decay;
                            momentum := momentum |};
             centered := centered; param_group := params; state := ∅ |}
  end.
Proof. by destruct params. Qed.

(** C3: construction with an empty parameter list raises the
    empty-parameter-list error and yields no object; with any other list it
    does not raise and yields the object with an empty state mapping. *)
Theorem init_empty_parameter_list (params : list ident)
    (lr alpha eps weight_decay momentum : A) (centered : bool) :
  __init__ params lr alpha eps weight_decay momentum centered =
  match params with
  | [] => inl (ValueError "optimizer got an empty parameter list")
  | _ :: _ =>
      inr {| defaults := {| lr := lr; alpha := alpha; eps := eps;
                            weight_decay := weight_decay;
                            momentum := momentum |};
             centered := centered; param_group := params; state := ∅ |}
  end.
Proof. apply init_cases. Qed.

(** C10: the numeric configuration is not validated. Whatever the values of
    lr, alpha, eps, weight_decay and momentum, construction on a non-empty
    list succeeds and stores them as given; a failure of construction means
    the list was empty. *)
Theorem init_no_validation (params : list ident)
    (lr alpha eps weight_decay momentum : A) (centered : bool) :
  params ≠ [] →
  (∃ o, __init__ params lr alpha eps weight_decay momentum centered = inr o
        ∧ defaults o = {| lr := lr; alpha := alpha; eps := eps;
                          weight_decay := weight_decay;
                          momentum := momentum |}
        ∧ param_group o = params)
  ∧ ∀ e params', __init__ params' lr alpha eps weight_decay momentum centered
                 = inl e → params' = [].
Proof.
  intros Hne. split.
  - destruct params as [|p ps]; [done|]. eexists. by split_and!.
  - intros e [|p ps]; [done|]. discriminate.
Qed.

(** ** The length check *)

Lemma step_refused w gradients :
  length (param_group (self w)) ≠ length gradients →
  step gradients w =
  (inl (ValueError (mismatch_message (length (param_group (self w)))
                                     (length gradients))), w).
Proof.
  intros Hlen. unfold step, bind, get_self, raise.
  by rewrite bool_decide_eq_true_2.
Qed.

(** C2: a gradient list of the wrong length makes [step] raise the
    length-mismatch error, and the world after the call is the world before
    it: no buffer, no state record and no counter has changed. *)
Theorem step_length_mismatch w gradients :
  length gradients ≠ length (param_group (self w)) →
  step gradients w =
  (inl (ValueError (mismatch_message (length (param_group (self w)))
                                     (length gradients))), w).
Proof. intros Hlen. apply step_refused. congruence. Qed.

(** ** The loop of [step], as a function on the state mapping *)

Lemma lazy_init_eq momentum param w :
  lazy_init momentum param w =
  (inr tt, set_state (<[param := fresh_record momentum (centered (self w))
                                   (buffers w param)]> (state (self w))) w).
Proof.
  unfold lazy_init, bind, new_record, store_key, read, get_self, ret,
    fresh_record.
  simpl. destruct (num_gt0 momentum); simpl;
    destruct (centered (self w)); unfold set_state; simpl;
    by rewrite !alter_insert_eq.
Qed.

Lemma fresh_record_ok momentum c t : record_ok momentum c (fresh_record momentum c t).
Proof.
  unfold record_ok, fresh_record.
  destruct (num_gt0 momentum), c; simpl;
    repeat (rewrite lookup_insert_eq || (rewrite lookup_insert_ne; [|done])
            || rewrite lookup_empty);
    split_and!; try done; split; (done || by intros []).
Qed.

Lemma load_key_Some param key w d v :
  state (self w) !! param = Some d → d !! key = Some v →
  load_key param key w = (inr v, w).
Proof. intros Hd Hv. unfold load_key. by rewrite Hd, Hv. Qed.

Lemma loop_body_present momentum param g l w :
  (∀ d, state (self w) !! param = Some d →
        record_ok momentum (centered (self w)) d) →
  loop_body momentum param (Some g) l w =
  (inr (pushed momentum (centered (self w)) param g l),
   set_state (visited momentum (centered (self w)) (buffers w param) param
                (state (self w))) w).
Proof.
  intros Hok.
  set (d := default (fresh_record momentum (centered (self w)) (buffers w param))
                    (state (self w) !! param)).
  set (w1 := set_state (<[param := d]> (state (self w))) w).
  assert (Hinit : (if bool_decide (is_Some (state (self w) !! param))
                   then ret tt else lazy_init momentum param) w
                  = (inr tt, w1)).
  { unfold w1, d.
    destruct (state (self w) !! param) as [d0|] eqn:E; simpl.
    - rewrite insert_id by done. by destruct w as [[]].
    - by rewrite lazy_init_eq. }
  assert (Hd : record_ok momentum (centered (self w)) d).
  { unfold d. destruct (state (self w) !! param) eqn:E; simpl; [by apply Hok|].
    apply fresh_record_ok. }
  destruct Hd as ([n Hn] & [sq Hsq] & Hm & Hc).
  assert (Hw1 : state (self w1) !! param = Some d) by apply lookup_insert_eq.
  unfold loop_body, bind, has_state. rewrite Hinit.
  rewrite (load_key_Some _ _ _ _ _ Hw1 Hsq).
  unfold visited, pushed. fold d. rewrite Hn. simpl.
  assert (Hend : ∀ l', ret l' (set_state
            (alter <["step":=add_one n]> param
               (<[param:=d]> (state (self w)))) w1)
          = (inr l', set_state
              (<[param:=<["step":=add_one n]> d]>
                 (state (self w))) w)).
  { intros l'. unfold ret, w1, set_state. simpl.
    by rewrite alter_insert_eq. }
  destruct (num_gt0 momentum) eqn:Em.
  - destruct (proj2 Hm eq_refl) as [b Hb].
    rewrite (load_key_Some _ _ _ _ _ Hw1 Hb). simpl.
    destruct (centered (self w)) eqn:Ec.
    + destruct (proj2 Hc eq_refl) as [ga Hga].
      rewrite (load_key_Some _ _ _ _ _ Hw1 Hga). simpl.
      rewrite (load_key_Some _ _ _ _ _ Hw1 Hn). unfold store_key. simpl.
      apply Hend.
    + simpl. rewrite (load_key_Some _ _ _ _ _ Hw1 Hn). unfold store_key. simpl.
      apply Hend.
  - simpl. destruct (centered (self w)) eqn:Ec.
    + destruct (proj2 Hc eq_refl) as [ga Hga].
      rewrite (load_key_Some _ _ _ _ _ Hw1 Hga). simpl.
      rewrite (load_key_Some _ _ _ _ _ Hw1 Hn). unfold store_key. simpl.
      apply Hend.
    + simpl. rewrite (load_key_Some _ _ _ _ _ Hw1 Hn). unfold store_key. simpl.
      apply Hend.
Qed.

Lemma loop_body_absent momentum param l w :
  loop_body momentum param None l w = (inr l, w).
Proof. done. Qed.

Lemma set_state_id w : set_state (state (self w)) w = w.
Proof. by destruct w as [[]]. Qed.

Lemma record_ok_step momentum c d v :
  record_ok momentum c d → record_ok momentum c (<["step" := v]> d).
Proof.
  intros (Hs & Hq & Hm & Hc). unfold record_ok.
  rewrite lookup_insert_eq.
  rewrite !(lookup_insert_ne _ "step") by done. by split_and!.
Qed.

Lemma visited_lookup momentum c t param st p :
  visited momentum c t param st !! p =
  if decide (param = p)
  then let d := default (fresh_record momentum c t) (st !! param) in
       Some (<["step" := add_one (default (Counter f32_zero) (d !! "step"))]> d)
  else st !! p.
Proof. unfold visited. by rewrite lookup_insert. Qed.

Lemma visited_ok momentum c t param st :
  all_ok momentum c st → all_ok momentum c (visited momentum c t param st).
Proof.
  intros Hok p d. rewrite visited_lookup. case_decide as Hp; [|apply Hok].
  intros [= <-]. apply record_ok_step.
  destruct (st !! param) eqn:E; simpl; [by eapply Hok|apply fresh_record_ok].
Qed.

Lemma visit_pair_ok momentum c bufs st pg :
  all_ok momentum c st → all_ok momentum c (visit_pair momentum c bufs st pg).
Proof. unfold visit_pair. destruct pg.2; [apply visited_ok|done]. Qed.

Lemma visit_pairs_ok momentum c bufs pairs st :
  all_ok momentum c st →
  all_ok momentum c (foldl (visit_pair momentum c bufs) st pairs).
Proof.
  revert st. induction pairs as [|pg pairs IH]; intros st Hok; [done|].
  simpl. by apply IH, visit_pair_ok.
Qed.

Lemma for_each_cons momentum param gradient pairs l w :
  for_each momentum ((param, gradient) :: pairs) l w =
  match loop_body momentum param gradient l w with
  | (inl e, w') => (inl e, w')
  | (inr l', w') => for_each momentum pairs l' w'
  end.
Proof. done. Qed.

(** The loop of [step] returns, and what it does to the state mapping and to
    the local lists is the fold of the one-pair functions. *)
Lemma for_each_eq momentum pairs l w :
  all_ok momentum (centered (self w)) (state (self w)) →
  for_each momentum pairs l w =
  (inr (foldl (push_pair momentum (centered (self w))) l pairs),
   set_state (foldl (visit_pair momentum (centered (self w)) (buffers w))
                    (state (self w)) pairs) w).
Proof.
  revert l w. induction pairs as [|[param [g|]] pairs IH]; intros l w Hok.
  - simpl. by rewrite set_state_id.
  - rewrite for_each_cons, loop_body_present by (intros d; apply Hok).
    rewrite IH; [done|]. by apply visited_ok.
  - rewrite for_each_cons, loop_body_absent. by apply IH.
Qed.

(** The loop run in two parts. *)
Lemma for_each_app momentum pairs1 pairs2 l w :
  for_each momentum (pairs1 ++ pairs2) l w =
  match for_each momentum pairs1 l w with
  | (inl e, w') => (inl e, w')
  | (inr l', w') => for_each momentum pairs2 l' w'
  end.
Proof.
  revert l w. induction pairs1 as [|[param g] pairs1 IH]; intros l w; [done|].
  rewrite <-app_comm_cons, !for_each_cons.
  destruct (loop_body momentum param g l w) as [[e|l'] w']; [done|]. apply IH.
Qed.

(** ** The update writes in place, to the tensors it is handed *)

Lemma writes_to_trans (S : ref → Prop) w1 w2 w3 :
  writes_to S w1 w2 → writes_to S w2 w3 → writes_to S w1 w3.
Proof.
  intros H12 H23. induction H23 as [|w w' r t _ IH Hr Hlen]; [done|].
  apply writes_snoc; auto.
Qed.

Lemma writes_to_mono (S S' : ref → Prop) w w' :
  (∀ r, S r → S' r) → writes_to S w w' → writes_to S' w w'.
Proof.
  intros HS Hw. induction Hw as [|w w' r t _ IH Hr Hlen]; [apply writes_nil|].
  apply writes_snoc; auto.
Qed.

(** The formulas keep the shape of their operands. *)
Lemma effective_gradient_length (wd : A) t s :
  (num_ne0 wd = true → length t = length s) →
  length (effective_gradient wd t s) = length t.
Proof.
  unfold effective_gradient, t_add, t_scale. destruct (num_ne0 wd); [|done].
  intros Hlen. rewrite length_zip_with, length_fmap, <-Hlen by done. lia.
Qed.

Lemma next_square_avg_length (α : A) t s :
  length t = length s → length (next_square_avg α t s) = length t.
Proof.
  intros Hlen. unfold next_square_avg, t_add, t_scale, t_mul.
  rewrite !length_zip_with, !length_fmap, !length_zip_with. lia.
Qed.

Lemma next_grad_avg_length (α : A) t s :
  length t = length s → length (next_grad_avg α t s) = length t.
Proof.
  intros Hlen. unfold next_grad_avg, t_add, t_scale.
  rewrite !length_zip_with, !length_fmap. lia.
Qed.

Lemma normalizer_length (ε : A) t : length (normalizer ε t) = length t.
Proof. unfold normalizer, t_add_scalar, t_sqrt. by rewrite !length_fmap. Qed.

Lemma centered_normalizer_length (ε : A) t s :
  length t = length s → length (centered_normalizer ε t s) = length t.
Proof.
  intros Hlen. unfold centered_normalizer, t_add_scalar, t_sqrt, t_sub, t_mul.
  rewrite !length_fmap, !length_zip_with. lia.
Qed.

Lemma next_momentum_buffer_length (μ : A) t s u :
  length t = length s → length s = length u →
  length (next_momentum_buffer μ t s u) = length t.
Proof.
  intros Hlen Hlen'. unfold next_momentum_buffer, t_add, t_scale, t_div.
  rewrite !length_zip_with, !length_fmap. lia.
Qed.

Lemma momentum_update_length (η : A) t s :
  length t = length s → length (momentum_update η t s) = length t.
Proof.
  intros Hlen. unfold momentum_update, t_sub, t_scale.
  rewrite !length_zip_with, !length_fmap. lia.
Qed.

Lemma plain_update_length (η : A) t s u :
  length t = length s → length s = length u →
  length (plain_update η t s u) = length t.
Proof.
  intros Hlen Hlen'. unfold plain_update, t_sub, t_scale, t_div.
  rewrite !length_zip_with, !length_fmap. lia.
Qed.

Lemma expand_length n (t : tensor A) : length (expand n t) = n.
Proof. unfold expand. case_bool_decide; [done|apply length_replicate]. Qed.

Lemma broadcast_to_eq n (t : tensor A) w :
  length t = n → broadcast_to n t w = (inr t, w).
Proof.
  intros Hlen. unfold broadcast_to, expand.
  rewrite !bool_decide_eq_true_2 by auto. done.
Qed.

Lemma broadcast_eq (s t : tensor A) w :
  length s = length t → broadcast s t w = (inr (s, t), w).
Proof. intros Hlen. unfold broadcast. by rewrite bool_decide_eq_true_2. Qed.

Lemma broadcast_to_cases n (t : tensor A) w :
  (∃ t', broadcast_to n t w = (inr t', w))
  ∨ broadcast_to n t w = (inl RuntimeError, w).
Proof. unfold broadcast_to. case_bool_decide; [left; by eexists|by right]. Qed.

Lemma broadcast_cases (s t : tensor A) w :
  (∃ pair, broadcast s t w = (inr pair, w))
  ∨ broadcast s t w = (inl RuntimeError, w).
Proof.
  unfold broadcast. repeat case_bool_decide; (left; by eexists) || by right.
Qed.

(** An assignment changes the contents of one tensor, and the shape of
    none. *)
Lemma deref_assign_length r t w r' :
  length t = length (deref w r) →
  length (deref (assign r t w) r') = length (deref w r').
Proof.
  intros Hlen. destruct r as [p|p key], r' as [p'|p' key']; simpl; try done.
  - destruct (decide (p = p')) as [->|Hne].
    + by rewrite fn_lookup_insert.
    + by rewrite fn_lookup_insert_ne.
  - destruct (decide (p = p')) as [->|Hne].
    2:{ by rewrite lookup_alter_ne. }
    rewrite lookup_alter_eq. simpl in Hlen.
    destruct (state (self w) !! p') as [d|]; [|done]. simpl in *.
    destruct (decide (key = key')) as [->|Hk].
    + rewrite lookup_alter_eq. by destruct (d !! key').
    + by rewrite lookup_alter_ne.
Qed.

Lemma writes_lengths (S : ref → Prop) w w' r :
  writes_to S w w' → length (deref w' r) = length (deref w r).
Proof.
  induction 1 as [|w w' r' t _ IH Hr Hlen]; [done|].
  by rewrite deref_assign_length.
Qed.

Section tracks.
Context (S : ref → Prop) (w0 : world A).

Lemma tracks_ret {X} (x : X) (Φ : X → Prop) : Φ x → tracks S w0 (ret x) Φ.
Proof. intros Hx w Hw. split; [done|]. by intros ? [= <-]. Qed.

Lemma tracks_raise {X} e (Φ : X → Prop) : tracks S w0 (raise e) Φ.
Proof. intros w Hw. by split. Qed.

Lemma tracks_bind {X Y} (m : M A X) (k : X → M A Y) Φ Ψ :
  tracks S w0 m Φ → (∀ x, Φ x → tracks S w0 (k x) Ψ) →
  tracks S w0 (bind m k) Ψ.
Proof.
  intros Hm Hk w Hw. destruct (Hm w Hw) as [Hw' Hx]. unfold bind.
  destruct (m w) as [[e|x] w']; simpl in *; [by split|].
  apply Hk; auto.
Qed.

Lemma tracks_index {X} (xs : list X) i :
  tracks S w0 (index xs i) (λ x, xs !! i = Some x).
Proof.
  unfold index. destruct (xs !! i); [by apply tracks_ret|apply tracks_raise].
Qed.

Lemma tracks_read r :
  tracks S w0 (read r) (λ t, length t = length (deref w0 r)).
Proof.
  intros w Hw. split; [done|]. intros t [= <-]. by eapply writes_lengths.
Qed.

Lemma tracks_broadcast_to n (t : tensor A) :
  tracks S w0 (broadcast_to n t) (λ t', length t' = n).
Proof.
  unfold broadcast_to. case_bool_decide; [|apply tracks_raise].
  apply tracks_ret, expand_length.
Qed.

Lemma tracks_broadcast (s t : tensor A) :
  tracks S w0 (broadcast s t) (λ _, True).
Proof.
  unfold broadcast.
  repeat case_bool_decide; by apply tracks_ret || apply tracks_raise.
Qed.

Lemma tracks_write r t :
  S r → length t = length (deref w0 r) →
  tracks S w0 (write r t) (λ _, True).
Proof.
  intros Hr Hlen w Hw. split; [|done]. simpl. apply writes_snoc; [done..|].
  by rewrite (writes_lengths _ _ _ _ Hw).
Qed.

Lemma tracks_weaken {X} (m : M A X) (Φ Ψ : X → Prop) :
  (∀ x, Φ x → Ψ x) → tracks S w0 m Φ → tracks S w0 m Ψ.
Proof. intros HΦ Hm w Hw. destruct (Hm w Hw). split; auto. Qed.
End tracks.

Lemma rmsprop_body_tracks (S : ref → Prop) w0 i (r0 : ref) grads sqs gas bufs
    (lr alpha eps weight_decay momentum : A) (c : bool) :
  S r0 → (∀ r, r ∈ sqs ∨ r ∈ gas ∨ r ∈ bufs → S r) →
  tracks S w0
    (rmsprop_body i r0 grads sqs gas bufs
       lr alpha eps weight_decay momentum c) (λ _, True).
Proof.
  intros Hr0 HS. unfold rmsprop_body.
  eapply tracks_bind; [apply tracks_index|]. intros grad _.
  eapply tracks_bind; [apply tracks_index|].
  intros sq Hsq%list_elem_of_lookup_2.
  eapply tracks_bind; [apply tracks_read|]. intros p Hp. simpl in Hp.
  eapply tracks_bind; [apply tracks_read|]. intros g _.
  eapply (tracks_bind _ _ _ _ (λ _, True)).
  { destruct (num_ne0 weight_decay);
      [apply tracks_broadcast|by apply tracks_ret]. }
  intros gp _. cbv zeta.
  eapply tracks_bind; [apply tracks_read|]. intros s Hs. simpl in Hs.
  eapply tracks_bind; [apply tracks_broadcast_to|]. intros gs Hgs.
  eapply tracks_bind.
  { apply tracks_write; [by auto|]. rewrite next_square_avg_length; done. }
  intros _ _.
  eapply (tracks_bind _ _ _ _ (λ _, True)).
  { destruct c; [|by apply tracks_ret].
    eapply tracks_bind; [apply tracks_index|].
    intros ga Hga%list_elem_of_lookup_2.
    eapply tracks_bind; [apply tracks_read|]. intros a Ha. simpl in Ha.
    eapply tracks_bind; [apply tracks_broadcast_to|]. intros gga Hgga.
    eapply tracks_bind.
    { apply tracks_write; [by auto|]. rewrite next_grad_avg_length; done. }
    intros _ _.
    eapply tracks_bind; [apply tracks_broadcast|]. intros sg _.
    by apply tracks_ret. }
  intros avg _. destruct (num_gt0 momentum).
  - eapply tracks_bind; [apply tracks_index|].
    intros buf Hbuf%list_elem_of_lookup_2.
    eapply tracks_bind; [apply tracks_read|]. intros b Hb. simpl in Hb.
    eapply tracks_bind; [apply tracks_broadcast_to|]. intros gb Hgb.
    eapply tracks_bind; [apply tracks_broadcast_to|]. intros ab Hab.
    eapply tracks_bind.
    { apply tracks_write; [by auto|].
      rewrite next_momentum_buffer_length; congruence. }
    intros _ _.
    eapply tracks_bind; [apply tracks_broadcast_to|]. intros bp Hbp.
    apply tracks_write; [by auto|]. rewrite momentum_update_length; done.
  - eapply tracks_bind; [apply tracks_broadcast_to|]. intros gp' Hgp.
    eapply tracks_bind; [apply tracks_broadcast_to|]. intros ap Hap.
    apply tracks_write; [by auto|].
    rewrite plain_update_length; congruence.
Qed.

Lemma rmsprop_from_tracks (S : ref → Prop) w0 i params grads sqs gas bufs
    (lr alpha eps weight_decay momentum : A) (c : bool) :
  (∀ r, r ∈ params ∨ r ∈ sqs ∨ r ∈ gas ∨ r ∈ bufs → S r) →
  tracks S w0
    (rmsprop_from i params grads sqs gas bufs
       lr alpha eps weight_decay momentum c) (λ _, True).
Proof.
  revert i. induction params as [|r0 params IH]; intros i HS.
  { by apply tracks_ret. }
  simpl. eapply tracks_bind.
  - apply rmsprop_body_tracks; [apply HS; left; by left|].
    intros r Hr. apply HS. by right.
  - intros _ _. apply IH. intros r [Hr|Hr]; apply HS; [left; by right|by right].
Qed.

Lemma rmsprop_writes params grads sqs gas bufs
    (lr alpha eps weight_decay momentum : A) (c : bool) :
  respects (writes_to (λ r, r ∈ params ∨ r ∈ sqs ∨ r ∈ gas ∨ r ∈ bufs))
    (rmsprop params grads sqs gas bufs lr alpha eps weight_decay momentum c).
Proof.
  intros w.
  eapply (rmsprop_from_tracks _ w 0 params grads sqs gas bufs); [done|].
  apply writes_nil.
Qed.

Section writes.
Context (S : ref → Prop).

Lemma writes_config w w' :
  writes_to S w w' →
  defaults (self w') = defaults (self w)
  ∧ centered (self w') = centered (self w)
  ∧ param_group (self w') = param_group (self w).
Proof.
  induction 1 as [|w w' r t _ IH _ _]; [done|]. by destruct r.
Qed.

Lemma writes_ok momentum c w w' :
  writes_to S w w' →
  all_ok momentum c (state (self w)) → all_ok momentum c (state (self w')).
Proof.
  induction 1 as [|w w' r t _ IH _ _]; [done|]. intros Hok.
  specialize (IH Hok). destruct r as [q|q key]; [done|].
  intros p d. simpl. destruct (decide (q = p)) as [->|Hne].
  - rewrite lookup_alter_eq. destruct (state (self w') !! p) as [d0|] eqn:E;
      [|done].
    intros [= <-]. destruct (IH _ _ E) as (Hs & Hq & Hm & Hc).
    unfold record_ok. by rewrite !lookup_alter_is_Some.
  - rewrite lookup_alter_ne by done. apply IH.
Qed.

Lemma writes_counter w w' p :
  (∀ r, S r → not_step r) →
  writes_to S w w' → counter w' p = counter w p.
Proof.
  intros HS. induction 1 as [|w w' r t _ IH Hr _]; [done|].
  rewrite <-IH. apply HS in Hr. destruct r as [q|q key]; [done|].
  unfold counter. simpl. destruct (decide (q = p)) as [->|Hne].
  - rewrite lookup_alter_eq. destruct (state (self w') !! p); [|done].
    simpl. by rewrite lookup_alter_ne.
  - by rewrite lookup_alter_ne.
Qed.

(** Keys are neither added nor removed, and buffers stay buffers. *)
Lemma writes_shaped w w' :
  (∀ r, S r → not_step r) →
  writes_to S w w' → shaped w → shaped w'.
Proof.
  intros HS. induction 1 as [|w w' r t _ IH Hr Hlen]; [done|].
  intros Hsh. specialize (IH Hsh). apply HS in Hr.
  destruct r as [q|q key]; simpl in *.
  - intros p d k v Hd Hv Hk. destruct (IH p d k v Hd Hv Hk) as (t' & -> & Ht').
    exists t'. split; [done|]. simpl.
    destruct (decide (q = p)) as [->|Hne].
    + rewrite fn_lookup_insert. congruence.
    + by rewrite fn_lookup_insert_ne.
  - intros p d k v. simpl. destruct (decide (q = p)) as [->|Hne].
    2:{ rewrite lookup_alter_ne by done. apply IH. }
    rewrite lookup_alter_eq.
    destruct (state (self w') !! p) as [d0|] eqn:E; [|done]. simpl in *.
    intros [= <-]. destruct (decide (key = k)) as [->|Hkk].
    2:{ rewrite lookup_alter_ne by done. by apply IH. }
    rewrite lookup_alter_eq. destruct (d0 !! k) as [v0|] eqn:Ev; [|done].
    simpl. intros [= <-] Hk. exists t. split; [done|].
    destruct (IH p d0 k v0 E Ev Hk) as (t' & -> & Ht'). simpl in Hlen.
    congruence.
Qed.

End writes.

(** ** Counters and local lists along the loop *)

Lemma fresh_record_step momentum c t :
  fresh_record momentum c t !! "step" = Some (Counter f32_zero).
Proof.
  unfold fresh_record. destruct (num_gt0 momentum), c;
    by repeat (rewrite lookup_insert_eq || (rewrite lookup_insert_ne; [|done])).
Qed.

Lemma visited_counter momentum c t param st p :
  all_ok momentum c st →
  visited momentum c t param st !! p ≫= (.!! "step") =
  if decide (param = p) then incr (st !! p ≫= (.!! "step"))
  else st !! p ≫= (.!! "step").
Proof.
  intros Hok. rewrite visited_lookup. case_decide as Hp; [subst p|done].
  simpl. rewrite lookup_insert_eq. unfold incr.
  destruct (st !! param) as [d|] eqn:E; simpl.
  - destruct (Hok _ _ E) as ([n ->] & _). done.
  - by rewrite fresh_record_step.
Qed.

Lemma visit_pairs_counter momentum c bufs pairs st p :
  all_ok momentum c st →
  foldl (visit_pair momentum c bufs) st pairs !! p ≫= (.!! "step") =
  Nat.iter (length (filter (λ pg, pg.1 = p ∧ is_Some pg.2) pairs)) incr
           (st !! p ≫= (.!! "step")).
Proof.
  revert st. induction pairs as [|[q g] pairs IH]; intros st Hok; [done|].
  simpl. rewrite IH by by apply visit_pair_ok.
  rewrite filter_cons. unfold visit_pair. simpl.
  destruct g as [g|]; simpl.
  - rewrite visited_counter by done. case_decide as Hq.
    + rewrite decide_True by (split; [done|by eexists]). simpl.
      symmetry. exact (Nat.iter_succ_r _ incr _).
    + rewrite decide_False; [done|]. by intros [? _].
  - rewrite decide_False; [done|]. intros [_ []]. done.
Qed.

Lemma pushed_refs momentum c param g l r :
  r ∈ list_refs (pushed momentum c param g l) →
  r ∈ list_refs l ∨ ∃ key, r = Slot param key ∧ key ≠ "step".
Proof.
  unfold list_refs, pushed. simpl.
  rewrite !elem_of_app. intros [[Hr|Hr]|[Hr|Hr]].
  - auto.
  - apply list_elem_of_singleton in Hr. right. by exists "square_avg".
  - destruct c; [|by auto]. apply elem_of_app in Hr as [Hr|Hr]; [by auto|].
    apply list_elem_of_singleton in Hr. right. by exists "grad_avg".
  - destruct (num_gt0 momentum); [|by auto].
    apply elem_of_app in Hr as [Hr|Hr]; [by auto|].
    apply list_elem_of_singleton in Hr. right. by exists "momentum_buffer".
Qed.

Lemma push_pairs_refs momentum c pairs l r :
  r ∈ list_refs (foldl (push_pair momentum c) l pairs) →
  r ∈ list_refs l
  ∨ ∃ q g key, (q, Some g) ∈ pairs ∧ r = Slot q key ∧ key ≠ "step".
Proof.
  revert l. induction pairs as [|[q g] pairs IH]; intros l; simpl; [by auto|].
  intros Hr. apply IH in Hr as [Hr|(q' & g' & key & Hin & -> & Hk)].
  - unfold push_pair in Hr. simpl in Hr. destruct g as [g|]; [|by auto].
    apply pushed_refs in Hr as [Hr|(key & -> & Hk)]; [by auto|].
    right. exists q, g, key. split; [left|done].
  - right. exists q', g', key. split; [by right|done].
Qed.

(** ** [step] past the length check *)

Lemma step_eq w gradients :
  state_ok w →
  length (param_group (self w)) = length gradients →
  let momentum := momentum (defaults (self w)) in
  let c := centered (self w) in
  let pairs := zip (param_group (self w)) gradients in
  let l := foldl (push_pair momentum c) no_locals pairs in
  let st := foldl (visit_pair momentum c (buffers w)) (state (self w)) pairs in
  step gradients w =
  rmsprop (Obj <$> param_group (self w)) (grads l) (square_avgs l)
    (grad_avgs l) (momentum_buffer_list l) (lr (defaults (self w)))
    (alpha (defaults (self w))) (eps (defaults (self w)))
    (weight_decay (defaults (self w))) momentum c (set_state st w).
Proof.
  intros Hok Hlen. simpl. unfold step, bind, get_self. simpl.
  rewrite bool_decide_eq_false_2 by (by intros ?).
  by rewrite for_each_eq.
Qed.

(** The world after the loop and the world after the whole call. *)
Lemma step_writes w gradients :
  state_ok w →
  length (param_group (self w)) = length gradients →
  let momentum := momentum (defaults (self w)) in
  let c := centered (self w) in
  let pairs := zip (param_group (self w)) gradients in
  let l := foldl (push_pair momentum c) no_locals pairs in
  let st := foldl (visit_pair momentum c (buffers w)) (state (self w)) pairs in
  writes_to (λ r, r ∈ Obj <$> param_group (self w) ∨ r ∈ list_refs l)
    (set_state st w) (after gradients w).
Proof.
  intros Hok Hlen. simpl. unfold after. rewrite step_eq by done.
  eapply writes_to_mono; [|apply rmsprop_writes].
  intros r. unfold list_refs. rewrite !elem_of_app. tauto.
Qed.

(** The tensors that the update of a call writes to are parameters and
    buffers of state records, never a step counter. *)
Lemma step_refs_not_step w gradients r :
  let momentum := momentum (defaults (self w)) in
  let c := centered (self w) in
  let pairs := zip (param_group (self w)) gradients in
  let l := foldl (push_pair momentum c) no_locals pairs in
  r ∈ Obj <$> param_group (self w) ∨ r ∈ list_refs l → not_step r.
Proof.
  simpl. intros [Hr|Hr].
  - apply list_elem_of_fmap in Hr as (q & -> & _). done.
  - apply push_pairs_refs in Hr as [Hr|(q & g & key & _ & -> & Hk)]; [|done].
    by apply elem_of_nil in Hr.
Qed.

(** ** One call, then a sequence of calls *)

Lemma after_mismatch w gradients :
  length (param_group (self w)) ≠ length gradients → after gradients w = w.
Proof.
  intros Hlen. unfold after. by rewrite step_refused.
Qed.

Lemma after_config w gradients :
  state_ok w →
  defaults (self (after gradients w)) = defaults (self w)
  ∧ centered (self (after gradients w)) = centered (self w)
  ∧ param_group (self (after gradients w)) = param_group (self w).
Proof.
  intros Hok.
  destruct (decide (length (param_group (self w)) = length gradients))
    as [Hlen|Hlen]; [|by rewrite after_mismatch].
  apply (writes_config _ _ _ (step_writes w gradients Hok Hlen)).
Qed.

Lemma after_ok w gradients : state_ok w → state_ok (after gradients w).
Proof.
  intros Hok.
  destruct (decide (length (param_group (self w)) = length gradients))
    as [Hlen|Hlen]; [|by rewrite after_mismatch].
  destruct (after_config w gradients Hok) as (Hd & Hc & _).
  unfold state_ok. rewrite Hd, Hc.
  apply (writes_ok _ _ _ _ _ (step_writes w gradients Hok Hlen)).
  simpl. by apply visit_pairs_ok.
Qed.

Lemma after_counter w gradients p :
  state_ok w →
  counter (after gradients w) p =
  Nat.iter (if bool_decide (length (param_group (self w)) = length gradients)
            then slot_hits p (param_group (self w)) gradients else 0)
           incr (counter w p).
Proof.
  intros Hok. case_bool_decide as Hlen; [|by rewrite after_mismatch].
  erewrite writes_counter; [|clear p|by apply step_writes].
  - unfold counter, slot_hits. simpl. by apply visit_pairs_counter.
  - apply step_refs_not_step.
Qed.

Lemma run_cons gradients calls w :
  run (gradients :: calls) w = run calls (after gradients w).
Proof. done. Qed.

Lemma run_invariant calls w :
  state_ok w →
  state_ok (run calls w)
  ∧ defaults (self (run calls w)) = defaults (self w)
  ∧ centered (self (run calls w)) = centered (self w)
  ∧ param_group (self (run calls w)) = param_group (self w).
Proof.
  revert w. induction calls as [|gradients calls IH]; intros w Hok; [done|].
  rewrite run_cons.
  destruct (IH _ (after_ok w gradients Hok)) as (? & -> & -> & ->).
  split; [done|]. by apply after_config.
Qed.

Lemma run_counter calls w p :
  state_ok w →
  counter (run calls w) p =
  Nat.iter (hits p (param_group (self w)) calls) incr (counter w p).
Proof.
  revert w. induction calls as [|gradients calls IH]; intros w Hok; [done|].
  rewrite run_cons, IH by by apply after_ok.
  destruct (after_config w gradients Hok) as (_ & _ & ->).
  rewrite after_counter by done. unfold hits. rewrite fmap_cons. simpl.
  rewrite Nat.add_comm. symmetry. apply Nat.iter_add.
Qed.

Lemma iter_incr_None n :
  Nat.iter n (incr (A:=A)) None =
  match n with
  | 0 => None
  | S _ => Some (Counter (float32_of_Z (Z.of_nat n `min` f32_limit)))
  end.
Proof.
  assert (Hiter : Nat.iter n (incr (A:=A)) None =
            match n with
            | 0 => None
            | S _ => Some (Counter (Nat.iter n (λ c, f32_add c f32_one)
                                      f32_zero))
            end).
  { induction n as [|n IH]; [done|]. simpl. rewrite IH. by destruct n. }
  rewrite Hiter. destruct n; [done|]. by rewrite f32_count.
Qed.

Lemma filter_absent_key {X} (P : ident * X → Prop) `{∀ x, Decision (P x)}
    p (params : list ident) (xs : list X) :
  p ∉ params → filter (λ pg, pg.1 = p ∧ P pg) (zip params xs) = [].
Proof.
  revert xs. induction params as [|q params IH]; intros [|x xs] Hp; try done.
  simpl. rewrite filter_cons. apply not_elem_of_cons in Hp as [Hne Hp].
  rewrite decide_False by (simpl; intros [? _]; congruence). by apply IH.
Qed.

Lemma slot_hits_NoDup p params gradients :
  NoDup params →
  slot_hits p params gradients =
  if decide (Exists (λ pg, pg.1 = p ∧ is_Some pg.2) (zip params gradients))
  then 1 else 0.
Proof.
  unfold slot_hits. revert gradients.
  induction params as [|q params IH]; intros [|g gradients] Hnd; simpl.
  1-3: done.
  apply NoDup_cons in Hnd as [Hq Hnd]. rewrite filter_cons.
  case_decide as Hqg; simpl in Hqg.
  - destruct Hqg as [-> Hg]. rewrite filter_absent_key by done.
    by rewrite decide_True by by left.
  - rewrite IH by done. apply decide_ext. rewrite Exists_cons. tauto.
Qed.

Lemma hits_NoDup p params calls :
  NoDup params → hits p params calls = calls_present p params calls.
Proof.
  intros Hnd. unfold hits, calls_present.
  induction calls as [|gradients calls IH]; [done|].
  rewrite fmap_cons, filter_cons. simpl. rewrite IH.
  rewrite slot_hits_NoDup by done.
  case_bool_decide as Hlen.
  - case_decide as Hex.
    + by rewrite decide_True.
    + rewrite decide_False; [done|]. by intros [_ ?].
  - rewrite decide_False; [done|]. by intros [? _].
Qed.

(** ** The state records of an optimizer in use *)

Lemma init_state_ok (params : list ident)
    (lr alpha eps weight_decay momentum : A) (c : bool) o bufs :
  __init__ params lr alpha eps weight_decay momentum c = inr o →
  state_ok {| self := o; buffers := bufs |}
  ∧ state o = ∅ ∧ param_group o = params
  ∧ defaults o = {| lr := lr; alpha := alpha; eps := eps;
                    weight_decay := weight_decay; momentum := momentum |}
  ∧ centered o = c.
Proof.
  rewrite init_cases. destruct params; [done|].
  intros [= <-]. split; [|done]. intros p d. simpl. by rewrite lookup_empty.
Qed.

(** C6: in every state record of an optimizer, after any sequence of calls
    of [step] since its construction, the key "momentum_buffer" is present
    exactly when momentum > 0 held at construction, and the key "grad_avg"
    exactly when centered was true at construction. *)
Theorem state_record_keys (params : list ident)
    (lr alpha eps weight_decay momentum : A) (c : bool) o bufs calls p d :
  __init__ params lr alpha eps weight_decay momentum c = inr o →
  state (self (run calls {| self := o; buffers := bufs |})) !! p = Some d →
  (is_Some (d !! "momentum_buffer") ↔ num_gt0 momentum = true)
  ∧ (is_Some (d !! "grad_avg") ↔ c = true).
Proof.
  intros Hinit Hd.
  destruct (init_state_ok _ _ _ _ _ _ _ _ bufs Hinit)
    as (Hok & _ & _ & Hm & Hc).
  destruct (run_invariant calls _ Hok) as (Hrun & Hdef & Hcen & _).
  destruct (Hrun _ _ Hd) as (_ & _ & Hmb & Hga).
  rewrite Hdef in Hmb. rewrite Hcen in Hga. simpl in Hmb, Hga.
  rewrite Hm in Hmb. rewrite Hc in Hga. done.
Qed.

(** C7, as amended: after any sequence of calls of [step] on a constructed
    optimizer, a parameter has no step counter while no slot of a call that
    passed the length check held it with a present gradient; otherwise its
    counter is the float32 that holds the number [n] of such slots, as long
    as [n] is at most 2^24 = 16777216, and the float32 16777216 from then
    on: the increment of a float32 counter is lost there. For a parameter
    list without repetition [n] is the number of calls in which the gradient
    of the parameter was present; calls where it was absent leave the
    counter as it was. *)
Theorem step_counter_counts (params : list ident)
    (lr alpha eps weight_decay momentum : A) (c : bool) o bufs calls p :
  __init__ params lr alpha eps weight_decay momentum c = inr o →
  let n := hits p params calls in
  let shown := (Z.of_nat n `min` f32_limit)%Z in
  counter (run calls {| self := o; buffers := bufs |}) p =
    match n with
    | 0 => None
    | S _ => Some (Counter (float32_of_Z shown))
    end
  ∧ float32_value (float32_of_Z shown) = Some shown
  ∧ (NoDup params → n = calls_present p params calls).
Proof.
  intros Hinit n shown.
  destruct (init_state_ok _ _ _ _ _ _ _ _ bufs Hinit)
    as (Hok & Hst & Hpg & _).
  split_and!; [| |apply hits_NoDup].
  - rewrite run_counter by done. simpl. rewrite Hpg.
    unfold counter. simpl. rewrite Hst, lookup_empty. simpl.
    apply iter_incr_None.
  - apply float32_value_of_Z. unfold shown, f32_limit. lia.
Qed.

(** ** Lazy state initialization *)

Lemma zeros_like_spec t :
  length (zeros_like t) = length t ∧ Forall (λ x, x = num_zero) (zeros_like t).
Proof.
  unfold zeros_like. split; [apply length_fmap|].
  apply Forall_fmap, Forall_true. done.
Qed.

Lemma fresh_record_lookup momentum c t :
  let d := fresh_record momentum c t in
  d !! "step" = Some (Counter f32_zero)
  ∧ d !! "square_avg" = Some (Buffer (zeros_like t))
  ∧ d !! "momentum_buffer" =
      (if num_gt0 momentum then Some (Buffer (zeros_like t)) else None)
  ∧ d !! "grad_avg" = (if c then Some (Buffer (zeros_like t)) else None)
  ∧ ∀ key, is_Some (d !! key) →
           key ∈ ["step"; "square_avg"; "momentum_buffer"; "grad_avg"].
Proof.
  simpl. unfold fresh_record.
  destruct (num_gt0 momentum), c; split_and!;
    try by repeat (rewrite lookup_insert_eq
                   || (rewrite lookup_insert_ne; [|done])
                   || rewrite lookup_empty).
  all: intros key;
    repeat (rewrite lookup_insert_is_Some'; intros [<-|Hkey];
            [rewrite !elem_of_cons; by auto 10|revert Hkey]);
    rewrite lookup_empty; by intros ?%is_Some_None.
Qed.

Lemma visit_pairs_None momentum c bufs pairs st p :
  foldl (visit_pair momentum c bufs) st pairs !! p = None
  ↔ st !! p = None ∧ ∀ g, (p, Some g) ∉ pairs.
Proof.
  revert st. induction pairs as [|[q o] pairs IH]; intros st.
  { simpl. split; [|by intros []]. intros Hst. split; [done|].
    intros g. apply not_elem_of_nil. }
  simpl. rewrite IH. unfold visit_pair. simpl. destruct o as [g|].
  - rewrite visited_lookup. case_decide as Hq.
    + subst q. split; [by intros []|]. intros [_ Hno]. destruct (Hno g).
      by left.
    + split; intros [Hst Hno]; (split; [done|]); intros g' Hin.
      * apply elem_of_cons in Hin as [[=]|Hin]; [done|]. by apply (Hno g').
      * apply (Hno g'). by right.
  - split; intros [Hst Hno]; (split; [done|]); intros g' Hin.
    + apply elem_of_cons in Hin as [[=]|Hin]. by apply (Hno g').
    + apply (Hno g'). by right.
Qed.

Lemma visited_shaped momentum c param st w :
  shaped (set_state st w) →
  shaped (set_state (visited momentum c (buffers w param) param st) w).
Proof.
  intros Hsh p d key v. simpl. rewrite visited_lookup.
  case_decide as Hp; [subst p|apply Hsh].
  intros [= <-] Hv Hkey. rewrite lookup_insert_ne in Hv by done.
  destruct (st !! param) as [d0|] eqn:E; simpl in Hv.
  { by apply (Hsh param d0 key v). }
  destruct (fresh_record_lookup momentum c (buffers w param))
    as (_ & Hq & Hm & Hc & Hkeys).
  destruct (zeros_like_spec (buffers w param)) as [Hlen _].
  assert (Hin : key ∈ ["step"; "square_avg"; "momentum_buffer"; "grad_avg"])
    by (apply Hkeys; by eexists).
  rewrite !elem_of_cons in Hin.
  destruct Hin as [->|[->|[->|[->|Hin]]]]; [done| | | |by apply elem_of_nil in Hin].
  - rewrite Hq in Hv. injection Hv as <-. by eexists.
  - rewrite Hm in Hv. destruct (num_gt0 momentum); [|done].
    injection Hv as <-. by eexists.
  - rewrite Hc in Hv. destruct c; [|done]. injection Hv as <-. by eexists.
Qed.

Lemma visit_pairs_shaped momentum c pairs st w :
  shaped (set_state st w) →
  shaped (set_state (foldl (visit_pair momentum c (buffers w)) st pairs) w).
Proof.
  revert st. induction pairs as [|[q o] pairs IH]; intros st Hsh; [done|].
  simpl. apply IH. unfold visit_pair. simpl. destruct o; [|done].
  by apply visited_shaped.
Qed.

Lemma after_shaped w gradients :
  state_ok w → shaped w → shaped (after gradients w).
Proof.
  intros Hok Hsh.
  destruct (decide (length (param_group (self w)) = length gradients))
    as [Hlen|Hlen]; [|by rewrite after_mismatch].
  eapply writes_shaped; [|by apply step_writes|].
  - apply step_refs_not_step.
  - simpl. apply visit_pairs_shaped. by rewrite set_state_id.
Qed.

Lemma run_shaped calls w : state_ok w → shaped w → shaped (run calls w).
Proof.
  revert w. induction calls as [|gradients calls IH]; intros w Hok Hsh; [done|].
  rewrite run_cons. apply IH; [by apply after_ok|by apply after_shaped].
Qed.

(** ** An optimizer in use *)

Lemma reachable_ok w :
  reachable w → state_ok w ∧ shaped w ∧ param_group (self w) ≠ [].
Proof.
  intros (params & lr0 & alpha0 & eps0 & wd0 & m0 & c0 & o & bufs & calls
          & Hinit & ->).
  destruct (init_state_ok _ _ _ _ _ _ _ _ bufs Hinit) as (Hok & Hst & Hpg & _).
  destruct (run_invariant calls _ Hok) as (Hrun & _ & _ & Hp).
  split_and!; [done| |].
  - apply run_shaped; [done|]. intros p d key v. simpl.
    by rewrite Hst, lookup_empty.
  - rewrite Hp. simpl. rewrite Hpg.
    rewrite init_cases in Hinit. by destruct params.
Qed.

Lemma reachable_after w gradients : reachable w → reachable (after gradients w).
Proof.
  intros (params & lr0 & alpha0 & eps0 & wd0 & m0 & c0 & o & bufs & calls
          & Hinit & ->).
  exists params, lr0, alpha0, eps0, wd0, m0, c0, o, bufs, (calls ++ [gradients]).
  split; [done|]. unfold run. by rewrite foldl_app.
Qed.

(** C5: the iteration of the loop of a call of [step], on an optimizer in
    use, that reaches a slot holding parameter [p] with a present gradient:
    the call runs the loop over the slots before it, then this iteration,
    then the rest of the loop and [F.rmsprop]. The parameter has no record
    when the iteration starts exactly when it had none before the call and
    no earlier slot of the call held it with a gradient. Then the iteration
    creates one, with a step counter of 0, a square_avg of zeros shaped like
    the parameter, a momentum_buffer of zeros exactly when momentum > 0 and
    a grad_avg of zeros exactly when centered, and no other key, and
    increments the counter to 1. When the parameter has a record, no record
    is created: the existing one is kept, with its counter incremented. No
    other record changes in either case. *)
Theorem lazy_state_initialization w gradients pre p g post :
  reachable w →
  length (param_group (self w)) = length gradients →
  zip (param_group (self w)) gradients = pre ++ (p, Some g) :: post →
  let cfg := defaults (self w) in
  let m := momentum cfg in
  let c := centered (self w) in
  let zeros := zeros_like (buffers w p) in
  ∃ l1 w1 l2 w2,
    for_each m pre no_locals w = (inr l1, w1)
    ∧ loop_body m p (Some g) l1 w1 = (inr l2, w2)
    ∧ step gradients w =
        (do l ← for_each m post l2;
         do this ← get_self;
         rmsprop (Obj <$> param_group (self w)) (grads l) (square_avgs l)
           (grad_avgs l) (momentum_buffer_list l) (lr cfg) (alpha cfg)
           (eps cfg) (weight_decay cfg) m (centered this)) w2
    ∧ (state (self w1) !! p = None
       ↔ state (self w) !! p = None ∧ ∀ g', (p, Some g') ∉ pre)
    ∧ (state (self w1) !! p = None →
       ∃ created,
         created !! "step" = Some (Counter f32_zero)
         ∧ created !! "square_avg" = Some (Buffer zeros)
         ∧ created !! "momentum_buffer" =
             (if num_gt0 m then Some (Buffer zeros) else None)
         ∧ created !! "grad_avg" = (if c then Some (Buffer zeros) else None)
         ∧ (∀ key, is_Some (created !! key) →
                   key ∈ ["step"; "square_avg"; "momentum_buffer"; "grad_avg"])
         ∧ length zeros = length (buffers w p)
         ∧ Forall (λ x, x = num_zero) zeros
         ∧ state (self w2) =
           <[p := <["step" := Counter f32_one]> created]> (state (self w1)))
    ∧ (∀ d, state (self w1) !! p = Some d →
       ∃ n, d !! "step" = Some n
            ∧ state (self w2) =
              <[p := <["step" := add_one n]> d]> (state (self w1))).
Proof.
  intros (Hok & _ & _)%reachable_ok Hlen Hzip. cbv zeta.
  set (m := momentum (defaults (self w))). set (c := centered (self w)).
  set (st1 := foldl (visit_pair m c (buffers w)) (state (self w)) pre).
  set (w1 := set_state st1 w).
  assert (Hok1 : all_ok m c st1) by (apply visit_pairs_ok, Hok).
  assert (Hpre : ∀ l, for_each m pre l w
                      = (inr (foldl (push_pair m c) l pre), w1)).
  { intros l. by rewrite for_each_eq by apply Hok. }
  assert (Hbody : ∀ l, loop_body m p (Some g) l w1
            = (inr (pushed m c p g l),
               set_state (visited m c (buffers w p) p st1) w1)).
  { intros l. rewrite loop_body_present; [done|]. intros d. apply Hok1. }
  eexists _, w1, _, _. split_and!; [apply Hpre|apply Hbody| | | |].
  - unfold step, bind, get_self. cbv beta iota zeta.
    rewrite bool_decide_eq_false_2 by (by intros ?).
    rewrite Hzip, for_each_app, Hpre, for_each_cons, Hbody. done.
  - apply visit_pairs_None.
  - intros Hnone. simpl in Hnone.
    exists (fresh_record m c (buffers w p)).
    destruct (fresh_record_lookup m c (buffers w p))
      as (Hs & Hq & Hm & Hc & Hk).
    destruct (zeros_like_spec (buffers w p)) as [Hlen' Hz].
    split_and!; try done. simpl. unfold visited. rewrite Hnone. simpl.
    by rewrite Hs.
  - intros d Hd. simpl in Hd. destruct (Hok1 p d Hd) as ([n Hn] & _).
    exists n. split; [done|]. simpl. unfold visited. rewrite Hd. simpl.
    by rewrite Hn.
Qed.

(** ** Two runs of [step] *)

Section two_runs.
Context (S : list ident) (G : list (ident * ident)).
Context (Hsep : ∀ g1 g2, (g1, g2) ∈ G → (g1 ∉ S) ∧ (g2 ∉ S)).

























End two_runs.





(** ** One position of the update *)

Lemma deref_assign_ne r t w r' :
  r ≠ r' → deref (assign r t w) r' = deref w r'.
Proof.
  intros Hne. destruct r as [p|p key], r' as [p'|p' key']; simpl; try done.
  - rewrite fn_lookup_insert_ne; [done|]. congruence.
  - destruct (decide (p = p')) as [->|Hp]; [|by rewrite lookup_alter_ne].
    rewrite lookup_alter_eq. destruct (state (self w) !! p'); [|done]. simpl.
    rewrite lookup_alter_ne; [done|]. congruence.
Qed.

Lemma rmsprop_body_at i q owner g grads sqs gas bufs
    (cfg : Defaults A) (c : bool) w :
  grads !! i = Some g →
  sqs !! i = Some (Slot owner "square_avg") →
  (c = true → gas !! i = Some (Slot owner "grad_avg")) →
  (num_gt0 (momentum cfg) = true →
   bufs !! i = Some (Slot owner "momentum_buffer")) →
  length (buffers w g) = length (buffers w q) →
  length (deref w (Slot owner "square_avg")) = length (buffers w q) →
  (c = true →
   length (deref w (Slot owner "grad_avg")) = length (buffers w q)) →
  (num_gt0 (momentum cfg) = true →
   length (deref w (Slot owner "momentum_buffer")) = length (buffers w q)) →
  rmsprop_body i (Obj q) grads sqs gas bufs (lr cfg) (alpha cfg)
    (eps cfg) (weight_decay cfg) (momentum cfg) c w =
  (inr tt, apply_update_at cfg c q owner (buffers w g) w).
Proof.
  intros Hg Hs Hc Hm Lg Ls Lc Lm.
  unfold rmsprop_body, bind, index, read, write, ret, apply_update_at.
  rewrite Hg, Hs. cbv beta iota zeta.
  change (deref w (Obj q)) with (buffers w q).
  change (deref w (Obj g)) with (buffers w g).
  set (p := buffers w q) in *. set (g0 := buffers w g) in *.
  assert (Hwd : (if num_ne0 (weight_decay cfg) then broadcast g0 p
                 else λ w, (inr (g0, p), w)) w = (inr (g0, p), w)).
  { destruct (num_ne0 (weight_decay cfg)); [|done]. by rewrite broadcast_eq. }
  rewrite Hwd. cbv beta iota. cbn [fst snd].
  set (grad := effective_gradient (weight_decay cfg) g0 p).
  assert (Lgrad : length grad = length p).
  { unfold grad. rewrite effective_gradient_length; done. }
  rewrite broadcast_to_eq by congruence. cbv beta iota.
  set (sq := next_square_avg (alpha cfg) _ grad).
  assert (Lsq : length sq = length p).
  { unfold sq. rewrite next_square_avg_length; congruence. }
  set (w1 := assign (Slot owner "square_avg") sq w).
  destruct c.
  - rewrite (Hc eq_refl). cbv beta iota.
    assert (Lga : length (deref w1 (Slot owner "grad_avg")) = length p).
    { unfold w1. rewrite deref_assign_ne by done. by apply Lc. }
    rewrite broadcast_to_eq by congruence. cbv beta iota.
    set (ga := next_grad_avg (alpha cfg) _ grad).
    assert (Lga' : length ga = length p).
    { unfold ga. rewrite next_grad_avg_length; congruence. }
    set (w2 := assign (Slot owner "grad_avg") ga w1).
    rewrite broadcast_eq by congruence. cbv beta iota. cbn [fst snd].
    set (avg := centered_normalizer (eps cfg) sq ga).
    assert (Lavg : length avg = length p).
    { unfold avg. rewrite centered_normalizer_length; congruence. }
    destruct (num_gt0 (momentum cfg)).
    + rewrite (Hm eq_refl). cbv beta iota.
      assert (Lb : length (deref w2 (Slot owner "momentum_buffer"))
                   = length p).
      { unfold w2, w1. rewrite !deref_assign_ne by done. by apply Lm. }
      rewrite !broadcast_to_eq by congruence. cbv beta iota.
      rewrite broadcast_to_eq; [done|].
      rewrite next_momentum_buffer_length; congruence.
    + rewrite !broadcast_to_eq by congruence. done.
  - cbv beta iota.
    set (avg := normalizer (eps cfg) sq).
    assert (Lavg : length avg = length p).
    { unfold avg. by rewrite normalizer_length. }
    destruct (num_gt0 (momentum cfg)).
    + rewrite (Hm eq_refl). cbv beta iota.
      assert (Lb : length (deref w1 (Slot owner "momentum_buffer"))
                   = length p).
      { unfold w1. rewrite !deref_assign_ne by done. by apply Lm. }
      rewrite !broadcast_to_eq by congruence. cbv beta iota.
      rewrite broadcast_to_eq; [done|].
      rewrite next_momentum_buffer_length; congruence.
    + rewrite !broadcast_to_eq by congruence. done.
Qed.

Lemma apply_update_at_buffers cfg c q owner (t : tensor A) w d :
  state (self w) !! owner = Some d →
  buffers (apply_update_at cfg c q owner t w) q
  = (update_one cfg c (buffers w q) d t).1
  ∧ ∀ p, p ≠ q → buffers (apply_update_at cfg c q owner t w) p = buffers w p.
Proof.
  intros Hd. unfold apply_update_at, update_one. cbv zeta.
  destruct c, (num_gt0 (momentum cfg)); simpl;
    rewrite ?fn_lookup_insert, ?lookup_alter_eq, ?Hd; simpl;
    rewrite ?lookup_alter_eq, ?Hd; simpl;
    (split; [done|]); intros p Hp; by rewrite fn_lookup_insert_ne.
Qed.

Lemma apply_update_at_state cfg c q owner (t : tensor A) w d :
  state (self w) !! owner = Some d →
  state (self (apply_update_at cfg c q owner t w)) !! owner
  = Some (update_one cfg c (buffers w q) d t).2
  ∧ ∀ p, p ≠ owner →
         state (self (apply_update_at cfg c q owner t w)) !! p
         = state (self w) !! p.
Proof.
  intros Hd. unfold apply_update_at, update_one. cbv zeta.
  destruct c, (num_gt0 (momentum cfg)); simpl;
    rewrite ?lookup_alter_eq, ?Hd; simpl;
    rewrite ?lookup_alter_eq, ?Hd; simpl;
    (split; [done|]); intros p Hp; by rewrite ?lookup_alter_ne.
Qed.

Lemma apply_update_at_is_Some cfg c q owner (t : tensor A) w p :
  is_Some (state (self (apply_update_at cfg c q owner t w)) !! p)
  ↔ is_Some (state (self w) !! p).
Proof.
  unfold apply_update_at. cbv zeta.
  destruct c, (num_gt0 (momentum cfg)); simpl;
    by rewrite ?lookup_alter_is_Some.
Qed.

Lemma update_errors_ret {X} (x : X) : update_errors (ret (A:=A) x).
Proof. by intros w. Qed.

Lemma update_errors_bind {X Y} (m : M A X) (k : X → M A Y) :
  update_errors m → (∀ x, update_errors (k x)) → update_errors (bind m k).
Proof.
  intros Hm Hk w. unfold bind. specialize (Hm w).
  destruct (m w) as [[e|x] w']; [done|]. apply Hk.
Qed.

Lemma update_errors_index {X} (xs : list X) i :
  update_errors (index (A:=A) xs i).
Proof. intros w. unfold index. destruct (xs !! i); simpl; auto. Qed.

Lemma update_errors_read r : update_errors (read (A:=A) r).
Proof. by intros w. Qed.

Lemma update_errors_write r (t : tensor A) : update_errors (write r t).
Proof. by intros w. Qed.

Lemma update_errors_broadcast_to n (t : tensor A) :
  update_errors (broadcast_to n t).
Proof. intros w. unfold broadcast_to. case_bool_decide; simpl; auto. Qed.

Lemma update_errors_broadcast (s t : tensor A) : update_errors (broadcast s t).
Proof. intros w. unfold broadcast. repeat case_bool_decide; simpl; auto. Qed.

Lemma rmsprop_body_errors i (r0 : ref) grads sqs gas bufs
    (lr0 alpha0 eps0 wd0 m0 : A) (c : bool) :
  update_errors
    (rmsprop_body i r0 grads sqs gas bufs lr0 alpha0 eps0 wd0 m0 c).
Proof.
  unfold rmsprop_body.
  repeat first
    [ apply update_errors_bind; [|intros ?]
    | apply update_errors_index
    | apply update_errors_read
    | apply update_errors_write
    | apply update_errors_broadcast_to
    | apply update_errors_broadcast
    | apply update_errors_ret
    | match goal with
      | |- update_errors (if ?b then _ else _) => destruct b
      end ].
Qed.

(** The outcome of one position: a return, which takes a gradient at that
    position, or one of the two exceptions of the update. *)
Lemma rmsprop_body_outcome i (r0 : ref) grads sqs gas bufs
    (lr0 alpha0 eps0 wd0 m0 : A) (c : bool) w :
  let r := (rmsprop_body i r0 grads sqs gas bufs
              lr0 alpha0 eps0 wd0 m0 c w).1 in
  (r = inr tt ∧ is_Some (grads !! i))
  ∨ r = inl IndexError ∨ r = inl RuntimeError.
Proof.
  cbv zeta.
  pose proof (rmsprop_body_errors i r0 grads sqs gas bufs lr0 alpha0 eps0 wd0
                m0 c w) as Herr.
  destruct (grads !! i) as [grad|] eqn:Eg.
  - destruct (rmsprop_body _ _ _ _ _ _ _ _ _ _ _ _ w) as [[e|[]] w'];
      simpl in *; [destruct Herr as [->| ->]; by auto|].
    left. split; [done|by eexists].
  - right. left. unfold rmsprop_body, bind, index. by rewrite Eg.
Qed.

(** The outcome of the update is a return, which takes a gradient for every
    parameter, or one of its two exceptions. *)
Lemma rmsprop_from_outcome i params grads sqs gas bufs
    (lr0 alpha0 eps0 wd0 m0 : A) (c : bool) w :
  let r := (rmsprop_from i params grads sqs gas bufs
              lr0 alpha0 eps0 wd0 m0 c w).1 in
  (r = inr tt ∧ i + length params ≤ length grads `max` i)
  ∨ r = inl IndexError ∨ r = inl RuntimeError.
Proof.
  revert i w. induction params as [|r0 params IH]; intros i w; simpl.
  { left. split; [done|]. lia. }
  unfold bind.
  destruct (rmsprop_body_outcome i r0 grads sqs gas bufs lr0 alpha0 eps0 wd0
              m0 c w) as [[Hr Hg]|Hr]; cbv zeta in *.
  - destruct (rmsprop_body _ _ _ _ _ _ _ _ _ _ _ _ w) as [[e|[]] w'];
      simpl in Hr; [done|].
    destruct Hg as [g Hg%lookup_lt_Some].
    destruct (IH (S i) w') as [[-> Hlen]|Hr']; [left|by right].
    split; [done|]. lia.
  - right.
    destruct (rmsprop_body _ _ _ _ _ _ _ _ _ _ _ _ w) as [[e|[]] w'];
      simpl in *; destruct Hr as [Hr|Hr]; by simplify_eq; auto.
Qed.

Lemma push_pairs_lists momentum c pairs l :
  foldl (push_pair momentum c) l pairs =
  {| grads := grads l ++ (snd <$> with_grad pairs);
     square_avgs :=
       square_avgs l ++ ((λ pg, Slot pg.1 "square_avg") <$> with_grad pairs);
     grad_avgs :=
       grad_avgs l ++ (if c then (λ pg, Slot pg.1 "grad_avg")
                                  <$> with_grad pairs else []);
     momentum_buffer_list :=
       momentum_buffer_list l
       ++ (if num_gt0 momentum
           then (λ pg, Slot pg.1 "momentum_buffer") <$> with_grad pairs
           else []) |}.
Proof.
  revert l. induction pairs as [|[p [g|]] pairs IH]; intros l.
  - simpl. rewrite !app_nil_r. destruct c, (num_gt0 momentum);
      rewrite ?app_nil_r; by destruct l.
  - simpl. rewrite IH. unfold push_pair, pushed. simpl.
    destruct c, (num_gt0 momentum); simpl; by rewrite <-?app_assoc.
  - simpl. by rewrite IH.
Qed.

Lemma with_grad_length (pairs : list (ident * option ident)) :
  length (with_grad pairs) ≤ length pairs
  ∧ (Forall (λ pg, is_Some pg.2) pairs →
     length (with_grad pairs) = length pairs)
  ∧ (Exists (λ pg, pg.2 = None) pairs →
     length (with_grad pairs) < length pairs).
Proof.
  induction pairs as [|[p [g|]] pairs (IH1 & IH2 & IH3)]; simpl.
  - split_and!; [done|done|by intros ?%Exists_nil].
  - split_and!; [lia| |].
    + intros [_ Hall]%Forall_cons. by rewrite IH2.
    + intros [[=]|Hex]%Exists_cons. specialize (IH3 Hex). lia.
  - split_and!; [lia| |lia].
    intros [[? [=]] _]%Forall_cons.
Qed.

Lemma zip_Forall_snd {X} (P : X → Prop) (ps : list ident) (xs : list X) :
  Forall P xs → Forall (λ pg, P pg.2) (zip ps xs).
Proof.
  intros Hall. revert ps. induction Hall as [|x xs Hx _ IH]; intros [|p ps];
    simpl; try constructor; auto.
Qed.

Lemma zip_Exists_snd {X} (P : X → Prop) (ps : list ident) (xs : list X) :
  length ps = length xs → Exists P xs → Exists (λ pg, P pg.2) (zip ps xs).
Proof.
  intros Hlen Hex. revert ps Hlen.
  induction Hex as [x xs Hx|x xs _ IH]; intros [|p ps] [=]; simpl.
  - by left.
  - right. by apply IH.
Qed.

(** X1: the loop of [step] on an optimizer in use never raises (every
    dictionary lookup it makes finds its key), and the four lists it builds
    hold, in list order, exactly the slots with a present gradient: the
    gradient objects themselves, the square_avg of each of their parameters,
    the grad_avg of each when centered and nothing otherwise, the
    momentum_buffer of each when momentum > 0 and nothing otherwise. *)
Theorem loop_collects_present_gradients w
    (pairs : list (ident * option ident)) :
  reachable w →
  (for_each (momentum (defaults (self w))) pairs no_locals w).1 =
  inr {| grads := snd <$> with_grad pairs;
         square_avgs := (λ pg, Slot pg.1 "square_avg") <$> with_grad pairs;
         grad_avgs :=
           if centered (self w)
           then (λ pg, Slot pg.1 "grad_avg") <$> with_grad pairs else [];
         momentum_buffer_list :=
           if num_gt0 (momentum (defaults (self w)))
           then (λ pg, Slot pg.1 "momentum_buffer") <$> with_grad pairs
           else [] |}.
Proof.
  intros [Hok _]%reachable_ok.
  rewrite for_each_eq by apply Hok. simpl. by rewrite push_pairs_lists.
Qed.

(** X3: on an optimizer in use, a call of [step] whose list has the right
    length but holds an absent gradient does not return: [F.rmsprop], given
    all the parameters and fewer gradients, ends in an [IndexError], unless
    it meets tensors of different shapes first and ends in a [RuntimeError].
    The loop has run by then, so the step counters of the parameters with a
    present gradient are incremented all the same. *)
Theorem step_raises_on_absent_gradient w gradients :
  reachable w →
  length (param_group (self w)) = length gradients →
  Exists (λ o, o = None) gradients →
  ((step gradients w).1 = inl IndexError
   ∨ (step gradients w).1 = inl RuntimeError)
  ∧ ∀ p, counter (after gradients w) p =
         Nat.iter (slot_hits p (param_group (self w)) gradients) incr
                  (counter w p).
Proof.
  intros [Hok _]%reachable_ok Hlen Hex. split.
  - rewrite step_eq by done. cbv zeta. rewrite push_pairs_lists.
    pose proof (with_grad_length (zip (param_group (self w)) gradients))
      as (_ & _ & Hless).
    specialize (Hless (zip_Exists_snd _ _ _ Hlen Hex)).
    rewrite length_zip, <-Hlen, Nat.min_id in Hless.
    unfold rmsprop.
    match goal with
    | |- (rmsprop_from 0 ?ps ?gs ?ss ?gas ?bs ?a ?b ?c ?d ?e ?f ?w').1 = _
         ∨ _ =>
        destruct (rmsprop_from_outcome 0 ps gs ss gas bs a b c d e f w')
          as [[_ Hle]|Hr]; [|exact Hr]
    end.
    simpl in Hle. rewrite !length_fmap in Hle. lia.
  - intros p. rewrite after_counter by done.
    by rewrite bool_decide_eq_true_2.
Qed.

Lemma writes_buffers_frame (S : ref → Prop) w w' q :
  (∀ r, S r → r ≠ Obj q) →
  writes_to S w w' → buffers w' q = buffers w q.
Proof.
  intros HS. induction 1 as [|w w' r t _ IH Hr _]; [done|].
  rewrite <-IH. destruct r as [p|p key]; [|done]. simpl.
  apply fn_lookup_insert_ne. intros ->. by apply (HS _ Hr).
Qed.

Lemma iter_incr_is_Some k (o : option (entry A)) :
  is_Some (Nat.iter k incr o) ↔ 0 < k ∨ is_Some o.
Proof.
  destruct k as [|k]; simpl.
  - split; [by right|]. by intros [?%Nat.lt_irrefl|?].
  - split; [intros _; left; lia|]. intros _. by eexists.
Qed.

Lemma record_counter w p :
  state_ok w → is_Some (counter w p) ↔ is_Some (state (self w) !! p).
Proof.
  intros Hok. unfold counter.
  destruct (state (self w) !! p) as [d|] eqn:E; simpl.
  - destruct (Hok _ _ E) as (Hs & _). split; [by eexists|done].
  - split; by intros [? [=]].
Qed.

Lemma slot_hits_absent p (params : list ident) gradients :
  p ∉ params → slot_hits p params gradients = 0.
Proof.
  intros Hp. unfold slot_hits. by rewrite filter_absent_key.
Qed.

Lemma hits_absent p (params : list ident) calls :
  p ∉ params → hits p params calls = 0.
Proof.
  intros Hp. unfold hits. induction calls as [|gs calls IH]; [done|].
  rewrite fmap_cons.
  change (sum_list (?a :: ?l)) with (a + sum_list l).
  rewrite IH, slot_hits_absent by done. by case_bool_decide.
Qed.

(** ** Parameters without a gradient *)

Lemma writes_state_frame (S : ref → Prop) w w' p :
  (∀ q key, S (Slot q key) → q ≠ p) →
  writes_to S w w' → state (self w') !! p = state (self w) !! p.
Proof.
  intros HS. induction 1 as [|w w' r t _ IH Hr _]; [done|].
  rewrite <-IH. destruct r as [q|q key]; [done|]. simpl.
  apply lookup_alter_ne. by eapply HS.
Qed.

Lemma visit_pairs_other momentum c bufs pairs st p :
  (∀ g, (p, Some g) ∉ pairs) →
  foldl (visit_pair momentum c bufs) st pairs !! p = st !! p.
Proof.
  revert st. induction pairs as [|[q g] pairs IH]; intros st Hp; [done|].
  simpl. rewrite IH by (intros g' Hg'; apply (Hp g'); by right).
  unfold visit_pair. simpl. destruct g as [g|]; [|done].
  rewrite visited_lookup, decide_False; [done|].
  intros ->. apply (Hp g). by left.
Qed.

(** What holds of the loop for a parameter none of whose slots has a
    gradient: its state record, if any, is the one it had, so none is
    created and its counter is not incremented. *)
Lemma absent_gradient_keeps_state w gradients p :
  state_ok w →
  (∀ g, (p, Some g) ∉ zip (param_group (self w)) gradients) →
  state (self (after gradients w)) !! p = state (self w) !! p.
Proof.
  intros Hok Hp.
  destruct (decide (length (param_group (self w)) = length gradients))
    as [Hlen|Hlen]; [|by rewrite after_mismatch].
  erewrite writes_state_frame; [| |by apply step_writes].
  { simpl. by apply visit_pairs_other. }
  simpl. intros q key [Hq|Hq].
  - apply list_elem_of_fmap in Hq as (? & [=] & _).
  - apply push_pairs_refs in Hq as [Hq|(q' & g & key' & Hin & [= -> ->] & _)].
    + by apply elem_of_nil in Hq.
    + intros ->. by apply (Hp g).
Qed.

(** A call in which every gradient is absent changes nothing; [F.rmsprop]
    then finds no gradient for the first parameter. *)
Lemma all_absent_call w gradients :
  state_ok w →
  length (param_group (self w)) = length gradients →
  Forall (λ o, o = None) gradients →
  step gradients w =
  (match param_group (self w) with [] => inr tt | _ :: _ => inl IndexError end,
   w).
Proof.
  intros Hok Hlen Hnone. rewrite step_eq by done.
  assert (Hpairs : ∀ (params : list ident) momentum c bufs st l,
    foldl (visit_pair momentum c bufs) st (zip params gradients) = st
    ∧ foldl (push_pair momentum c) l (zip params gradients) = l).
  { clear Hlen Hok. induction Hnone as [|o gs -> _ IH]; intros [|q params] *;
      try done. simpl. apply IH. }
  destruct (Hpairs (param_group (self w)) (momentum (defaults (self w)))
              (centered (self w)) (buffers w) (state (self w)) no_locals)
    as [-> ->].
  rewrite set_state_id. by destruct (param_group (self w)).
Qed.

(** X4: a call of [step] on an optimizer in use leaves every tensor that is
    not in the parameter list as it was, a gradient as well as any other,
    and leaves such a tensor without a state record: whatever the
    gradients, and whether the call returns or raises. *)
Theorem step_touches_only_parameters w gradients q :
  reachable w →
  q ∉ param_group (self w) →
  buffers (after gradients w) q = buffers w q
  ∧ state (self (after gradients w)) !! q = None.
Proof.
  intros Hreach Hq. destruct (reachable_ok w Hreach) as (Hok & _ & _).
  assert (Hz : ∀ g, (q, Some g) ∉ zip (param_group (self w)) gradients).
  { intros g Hin. by apply elem_of_zip_l in Hin. }
  assert (Hnone : state (self w) !! q = None).
  { apply eq_None_not_Some. rewrite <-record_counter by done.
    destruct Hreach as (params & lr0 & alpha0 & eps0 & wd0 & m0 & c0 & o
                        & bufs & calls & Hinit & ->).
    destruct (init_state_ok _ _ _ _ _ _ _ _ bufs Hinit)
      as (Hok0 & Hst & Hpg & _).
    destruct (run_invariant calls _ Hok0) as (_ & _ & _ & Hp).
    rewrite run_counter by done. rewrite Hp in Hq. simpl in *.
    rewrite Hpg in *.
    rewrite hits_absent by done.
    unfold counter. simpl. rewrite Hst, lookup_empty. by intros [? [=]]. }
  split; [|by rewrite absent_gradient_keeps_state].
  destruct (decide (length (param_group (self w)) = length gradients))
    as [Hlen|Hlen]; [|by rewrite after_mismatch].
  pose proof (step_writes w gradients Hok Hlen) as Hw. simpl in Hw.
  apply writes_buffers_frame with (q := q) in Hw; [exact Hw|].
  intros r [Hr|Hr] ->.
  - apply list_elem_of_fmap in Hr as (p & [= <-] & Hp). done.
  - apply push_pairs_refs in Hr as [Hr|(? & ? & ? & _ & [=] & _)].
    by apply elem_of_nil in Hr.
Qed.

(** X5: state records are created lazily and never removed. After a call of
    [step] on an optimizer in use, a parameter has a state record exactly
    when it had one before the call or the call passed the length check and
    held a present gradient for it. *)
Theorem state_records_persist w gradients p :
  reachable w →
  is_Some (state (self (after gradients w)) !! p) ↔
  is_Some (state (self w) !! p)
  ∨ (length (param_group (self w)) = length gradients
     ∧ Exists (λ pg, pg.1 = p ∧ is_Some pg.2)
              (zip (param_group (self w)) gradients)).
Proof.
  intros [Hok _]%reachable_ok.
  rewrite <-!record_counter by (done || by apply after_ok).
  rewrite after_counter, iter_incr_is_Some by done.
  case_bool_decide as Hlen.
  - unfold slot_hits.
    assert (0 < length (filter (λ pg, pg.1 = p ∧ is_Some pg.2)
                          (zip (param_group (self w)) gradients))
            ↔ Exists (λ pg, pg.1 = p ∧ is_Some pg.2)
                     (zip (param_group (self w)) gradients)) as ->.
    { generalize (zip (param_group (self w)) gradients). intros pairs.
      induction pairs as [|pg pairs IH]; simpl.
      - split; [lia|by intros ?%Exists_nil].
      - rewrite filter_cons, Exists_cons. case_decide; simpl; [|tauto].
        split; [by left|lia]. }
    tauto.
  - split; [intros [?|?]; [lia|by left]|]. intros [?|[? _]]; [by right|done].
Qed.

(** X6: the configuration and the parameter list of an optimizer are fixed
    at construction: whatever calls of [step] follow, with whatever outcome,
    the object holds the learning rate, alpha, eps, weight decay, momentum
    and centered flag it was built with, and the same list of parameters. *)
Theorem configuration_is_immutable (params : list ident)
    (η α ε wd μ : A) (c : bool) o bufs calls :
  __init__ params η α ε wd μ c = inr o →
  let w := run calls {| self := o; buffers := bufs |} in
  defaults (self w) = {| lr := η; alpha := α; eps := ε;
                         weight_decay := wd; momentum := μ |}
  ∧ centered (self w) = c
  ∧ param_group (self w) = params.
Proof.
  intros Hinit w. subst w.
  destruct (init_state_ok _ _ _ _ _ _ _ _ bufs Hinit)
    as (Hok & _ & Hpg & Hdef & Hc).
  destruct (run_invariant calls _ Hok) as (_ & -> & -> & ->). done.
Qed.

(** X8: on an optimizer in use, a call of [step] whose gradients are all
    absent changes nothing, neither a parameter nor the state; it does not
    return either, [F.rmsprop] finding no gradient for the first
    parameter. *)
Theorem all_gradients_absent w gradients :
  reachable w →
  length (param_group (self w)) = length gradients →
  Forall (λ o, o = None) gradients →
  step gradients w = (inl IndexError, w).
Proof.
  intros (Hok & _ & Hne)%reachable_ok Hlen Hnone.
  rewrite all_absent_call by done. by destruct (param_group (self w)).
Qed.

(** X9: a call of [step] on an optimizer in use leaves the state of a
    parameter none of whose slots holds a gradient as it was: no record is
    created for it, and an existing record keeps its counter and its
    buffers, whatever the other slots hold and whether the call returns or
    raises. *)
Theorem absent_gradient_leaves_record w gradients p :
  reachable w →
  (∀ j, param_group (self w) !! j = Some p → gradients !! j = Some None) →
  state (self (after gradients w)) !! p = state (self w) !! p.
Proof.
  intros [Hok _]%reachable_ok Hp.
  apply absent_gradient_keeps_state; [done|].
  intros g Hin. apply list_elem_of_lookup in Hin as [j Hj].
  apply lookup_zip_Some in Hj as [Hj Hg].
  specialize (Hp j Hj). congruence.
Qed.

(** ** The update by position *)

Lemma rmsprop_body_world (S : ref → Prop) w0 i q owner g grads sqs gas bufs
    (cfg : Defaults A) (c : bool) w :
  writes_to S w0 w →
  S (Obj q) → (∀ r, r ∈ sqs ∨ r ∈ gas ∨ r ∈ bufs → S r) →
  grads !! i = Some g →
  sqs !! i = Some (Slot owner "square_avg") →
  (c = true → gas !! i = Some (Slot owner "grad_avg")) →
  (num_gt0 (momentum cfg) = true →
   bufs !! i = Some (Slot owner "momentum_buffer")) →
  length (buffers w0 g) = length (buffers w0 q) →
  length (deref w0 (Slot owner "square_avg")) = length (buffers w0 q) →
  (c = true →
   length (deref w0 (Slot owner "grad_avg")) = length (buffers w0 q)) →
  (num_gt0 (momentum cfg) = true →
   length (deref w0 (Slot owner "momentum_buffer")) = length (buffers w0 q)) →
  rmsprop_body i (Obj q) grads sqs gas bufs (lr cfg) (alpha cfg)
    (eps cfg) (weight_decay cfg) (momentum cfg) c w =
  (inr tt, apply_update_at cfg c q owner (buffers w g) w)
  ∧ writes_to S w0 (apply_update_at cfg c q owner (buffers w g) w).
Proof.
  intros Hw Hq HS Hg Hs Hc Hm Lg Ls Lc Lm.
  assert (Hlen : ∀ r, length (deref w r) = length (deref w0 r))
    by (intros r; by eapply writes_lengths).
  assert (Hb : ∀ x, length (buffers w x) = length (buffers w0 x))
    by (intros x; apply (Hlen (Obj x))).
  assert (Hat : rmsprop_body i (Obj q) grads sqs gas bufs (lr cfg) (alpha cfg)
                  (eps cfg) (weight_decay cfg) (momentum cfg) c w =
                (inr tt, apply_update_at cfg c q owner (buffers w g) w)).
  { apply rmsprop_body_at; try done.
    - by rewrite !Hb.
    - by rewrite Hlen, Hb.
    - intros Hc'. rewrite Hlen, Hb. by apply Lc.
    - intros Hm'. rewrite Hlen, Hb. by apply Lm. }
  split; [done|].
  destruct (rmsprop_body_tracks S w0 i (Obj q) grads sqs gas bufs (lr cfg)
              (alpha cfg) (eps cfg) (weight_decay cfg) (momentum cfg) c
              Hq HS w Hw) as [Hw' _].
  by rewrite Hat in Hw'.
Qed.

(** With a gradient of the right shape for every parameter the update
    returns, also when a parameter is listed twice or a gradient is one of
    the parameters. *)
Lemma rmsprop_from_returns (W : ref → Prop) w0 (cfg : Defaults A) (c : bool)
    grads sqs gas bufs (ps : list ident) i w :
  writes_to W w0 w →
  (∀ r, r ∈ Obj <$> ps ∨ r ∈ sqs ∨ r ∈ gas ∨ r ∈ bufs → W r) →
  (∀ j p, ps !! j = Some p →
     ∃ g, grads !! (i + j) = Some g
       ∧ sqs !! (i + j) = Some (Slot p "square_avg")
       ∧ (c = true → gas !! (i + j) = Some (Slot p "grad_avg"))
       ∧ (num_gt0 (momentum cfg) = true →
          bufs !! (i + j) = Some (Slot p "momentum_buffer"))
       ∧ length (buffers w0 g) = length (buffers w0 p)
       ∧ length (deref w0 (Slot p "square_avg")) = length (buffers w0 p)
       ∧ (c = true →
          length (deref w0 (Slot p "grad_avg")) = length (buffers w0 p))
       ∧ (num_gt0 (momentum cfg) = true →
          length (deref w0 (Slot p "momentum_buffer"))
          = length (buffers w0 p))) →
  (rmsprop_from i (Obj <$> ps) grads sqs gas bufs (lr cfg) (alpha cfg)
     (eps cfg) (weight_decay cfg) (momentum cfg) c w).1 = inr tt.
Proof.
  revert i w. induction ps as [|p ps IH]; intros i w Hw HS Hal; [done|].
  destruct (Hal 0 p eq_refl) as (g & Hg & Hs & Hc & Hm & Lg & Ls & Lc & Lm).
  rewrite Nat.add_0_r in Hg, Hs, Hc, Hm.
  rewrite fmap_cons. cbn [rmsprop_from]. unfold bind.
  destruct (rmsprop_body_world W w0 i p p g grads sqs gas bufs cfg c w)
    as [-> Hw']; try done.
  { apply HS. left. by left. }
  { intros r Hr. apply HS. by right. }
  apply IH; [done| |].
  - intros r [Hr|Hr]; apply HS; [left; by right|by right].
  - intros j p' Hj. specialize (Hal (S j) p' Hj).
    by rewrite Nat.add_succ_r in Hal.
Qed.

Lemma rmsprop_from_positions (cfg : Defaults A) (c : bool)
    grads sqs gas bufs (ps os : list ident) i w :
  NoDup ps → NoDup os →
  length grads = i + length os →
  (∀ o, o ∈ os → is_Some (state (self w) !! o)) →
  (∀ j o, os !! j = Some o →
     sqs !! (i + j) = Some (Slot o "square_avg")
     ∧ (c = true → gas !! (i + j) = Some (Slot o "grad_avg"))
     ∧ (num_gt0 (momentum cfg) = true →
        bufs !! (i + j) = Some (Slot o "momentum_buffer"))) →
  (∀ j g, i ≤ j → grads !! j = Some g → g ∉ ps) →
  (∀ j p o g, ps !! j = Some p → os !! j = Some o →
     grads !! (i + j) = Some g →
     length (buffers w g) = length (buffers w p)
     ∧ length (deref w (Slot o "square_avg")) = length (buffers w p)
     ∧ (c = true →
        length (deref w (Slot o "grad_avg")) = length (buffers w p))
     ∧ (num_gt0 (momentum cfg) = true →
        length (deref w (Slot o "momentum_buffer"))
        = length (buffers w p))) →
  let r := rmsprop_from i (Obj <$> ps) grads sqs gas bufs (lr cfg)
             (alpha cfg) (eps cfg) (weight_decay cfg) (momentum cfg) c w in
  r.1 = (if decide (length ps ≤ length os) then inr tt else inl IndexError)
  ∧ (∀ j p o g d, ps !! j = Some p → os !! j = Some o →
       grads !! (i + j) = Some g → state (self w) !! o = Some d →
       buffers r.2 p = (update_one cfg c (buffers w p) d (buffers w g)).1
       ∧ state (self r.2) !! o
         = Some (update_one cfg c (buffers w p) d (buffers w g)).2)
  ∧ (∀ q, q ∉ take (length os) ps → buffers r.2 q = buffers w q)
  ∧ (∀ q, q ∉ os → state (self r.2) !! q = state (self w) !! q).
Proof.
  revert os i w.
  induction ps as [|p ps IH]; intros os i w Hps Hos Hlen Hrec Hal Hsep Hsh.
  { cbv zeta. split_and!; [|intros j p o g d [=]|done|done].
    case_decide as Hn; [done|]. exfalso. apply Hn. simpl. lia. }
  apply NoDup_cons in Hps as [Hp Hps].
  destruct os as [|o os].
  { cbv zeta. rewrite fmap_cons. cbn [rmsprop_from].
    unfold bind, rmsprop_body, index.
    rewrite lookup_ge_None_2 by (simpl in Hlen; lia). simpl.
    split_and!; [done| |done|done]. intros j p' o g d _ [=]. }
  apply NoDup_cons in Hos as [Ho Hos].
  destruct (lookup_lt_is_Some_2 grads i) as [g0 Hg0]; [simpl in Hlen; lia|].
  destruct (Hrec o) as [d0 Hd0]; [by left|].
  destruct (Hal 0 o eq_refl) as (Hs0 & Hc0 & Hm0).
  rewrite Nat.add_0_r in Hs0, Hc0, Hm0.
  destruct (Hsh 0 p o g0 eq_refl eq_refl) as (Lg & Ls & Lc & Lm).
  { by rewrite Nat.add_0_r. }
  cbv zeta. rewrite fmap_cons. cbn [rmsprop_from]. unfold bind.
  destruct (rmsprop_body_world (λ _, True) w i p o g0 grads sqs gas bufs
              cfg c w) as [-> Hw1]; try done; [apply writes_nil|].
  set (w1 := apply_update_at cfg c p o (buffers w g0) w) in *.
  assert (Hlen1 : ∀ r, length (deref w1 r) = length (deref w r))
    by (intros r; by eapply writes_lengths).
  destruct (apply_update_at_buffers cfg c p o (buffers w g0) w d0 Hd0)
    as [Hb1 Hb2].
  destruct (apply_update_at_state cfg c p o (buffers w g0) w d0 Hd0)
    as [Hs1 Hs2].
  fold w1 in Hb1, Hb2, Hs1, Hs2.
  destruct (IH os (S i) w1 Hps Hos) as (Hout & Hupd & Hbuf & Hst).
  { simpl in Hlen. lia. }
  { intros o' Ho'. apply apply_update_at_is_Some, Hrec. by right. }
  { intros j o' Hj. specialize (Hal (S j) o' Hj).
    by rewrite Nat.add_succ_r in Hal. }
  { intros j g Hj Hg Hin. apply (Hsep j g); [lia|done|by right]. }
  { intros j p' o' g Hj Ho' Hg.
    rewrite !Hlen1.
    change (buffers w1 g) with (deref w1 (Obj g)).
    change (buffers w1 p') with (deref w1 (Obj p')). rewrite !Hlen1.
    apply (Hsh (S j) p' o' g); [done..|]. by rewrite Nat.add_succ_r. }
  split_and!.
  - rewrite Hout. simpl. apply decide_ext. lia.
  - intros [|j] p' o' g d Hj Ho' Hg Hd.
    + injection Hj as <-. injection Ho' as <-.
      rewrite Nat.add_0_r, Hg0 in Hg. injection Hg as <-.
      rewrite Hd0 in Hd. injection Hd as <-.
      rewrite Hbuf, Hst by (done || (intros Hin; apply Hp; by eapply subseteq_take)).
      done.
    + simpl in Hj, Ho'. rewrite Nat.add_succ_r in Hg.
      assert (p' ≠ p) by (intros ->; apply Hp; by eapply list_elem_of_lookup_2).
      assert (o' ≠ o) by (intros ->; apply Ho; by eapply list_elem_of_lookup_2).
      assert (g ≠ p).
      { intros ->. apply (Hsep (S (i + j)) p); [lia|done|by left]. }
      rewrite <-(Hb2 p'), <-(Hb2 g) by done. apply (Hupd j p' o' g d Hj Ho' Hg).
      by rewrite Hs2.
  - intros q Hq. simpl in Hq. apply not_elem_of_cons in Hq as [Hqp Hq].
    rewrite Hbuf by done. by apply Hb2.
  - intros q [Hqo Hq]%not_elem_of_cons. rewrite Hst by done. by apply Hs2.
Qed.

Lemma with_grad_elem (pairs : list (ident * option ident)) p g :
  (p, g) ∈ with_grad pairs ↔ (p, Some g) ∈ pairs.
Proof.
  unfold with_grad. rewrite list_elem_of_omap. split.
  - intros ([q [g'|]] & Hin & [=]). by subst.
  - intros Hin. by exists (p, Some g).
Qed.

Lemma with_grad_NoDup (pairs : list (ident * option ident)) :
  NoDup pairs.*1 → NoDup (with_grad pairs).*1.
Proof.
  induction pairs as [|[q [g|]] pairs IH]; simpl; [done| |].
  - intros [Hq Hnd]%NoDup_cons. apply NoDup_cons. split; [|by apply IH].
    intros Hin. apply Hq.
    apply list_elem_of_fmap in Hin as ([p g'] & -> & Hin). simpl.
    apply with_grad_elem in Hin. by apply (list_elem_of_fmap_2 fst) in Hin.
  - intros [_ Hnd]%NoDup_cons. by apply IH.
Qed.

Lemma with_grad_all (ps gs : list ident) :
  with_grad (zip ps (Some <$> gs)) = zip ps gs.
Proof.
  revert gs. induction ps as [|p ps IH]; intros [|g gs]; simpl; try done.
  by rewrite IH.
Qed.

Lemma visit_pairs_once momentum c bufs pairs st p g :
  NoDup pairs.*1 → (p, Some g) ∈ pairs →
  foldl (visit_pair momentum c bufs) st pairs !! p
  = visited momentum c (bufs p) p st !! p.
Proof.
  revert st. induction pairs as [|[q o] pairs IH]; intros st Hnd Hin.
  { by apply elem_of_nil in Hin. }
  rewrite fmap_cons in Hnd. apply NoDup_cons in Hnd as [Hq Hnd]. simpl in Hq.
  apply elem_of_cons in Hin as [[= <- <-]|Hin]; simpl.
  - unfold visit_pair at 2. simpl. apply visit_pairs_other.
    intros g' Hg'. apply Hq. by apply (list_elem_of_fmap_2 fst) in Hg'.
  - assert (Hne : q ≠ p).
    { intros ->. apply Hq. by apply (list_elem_of_fmap_2 fst) in Hin. }
    rewrite IH by done. rewrite !visited_lookup, !decide_True by done.
    unfold visit_pair. simpl. destruct o as [g'|]; [|done].
    by rewrite visited_lookup, decide_False.
Qed.

(** The shapes of the buffers of a record after the loop. *)
Lemma shaped_slot w p d key :
  shaped w → state (self w) !! p = Some d → is_Some (d !! key) →
  key ≠ "step" →
  length (deref w (Slot p key)) = length (buffers w p).
Proof.
  intros Hsh Hd [v Hv] Hkey. simpl. rewrite Hd. simpl. rewrite Hv.
  by destruct (Hsh p d key v Hd Hv Hkey) as (t & -> & Ht).
Qed.

Lemma loop_world_shapes w pairs p g :
  state_ok w → shaped w → (p, Some g) ∈ pairs →
  let m := momentum (defaults (self w)) in
  let c := centered (self w) in
  let w' := set_state (foldl (visit_pair m c (buffers w)) (state (self w))
                         pairs) w in
  is_Some (state (self w') !! p)
  ∧ length (deref w' (Slot p "square_avg")) = length (buffers w p)
  ∧ (c = true → length (deref w' (Slot p "grad_avg")) = length (buffers w p))
  ∧ (num_gt0 m = true →
     length (deref w' (Slot p "momentum_buffer")) = length (buffers w p)).
Proof.
  intros Hok Hsh Hin. cbv zeta.
  set (w' := set_state _ w).
  assert (Hsh' : shaped w').
  { apply visit_pairs_shaped. by rewrite set_state_id. }
  assert (Hok' : all_ok (momentum (defaults (self w))) (centered (self w))
                   (state (self w'))) by (apply visit_pairs_ok, Hok).
  destruct (state (self w') !! p) as [d|] eqn:Hd.
  2:{ apply visit_pairs_None in Hd as [_ Hno]. by destruct (Hno g). }
  destruct (Hok' p d Hd) as (_ & Hq & Hm & Hc).
  split_and!; [by eexists| | |].
  - by apply (shaped_slot w' p d).
  - intros Hc'. apply (shaped_slot w' p d); [done..| |done]. by apply Hc.
  - intros Hm'. apply (shaped_slot w' p d); [done..| |done]. by apply Hm.
Qed.

(** What a call does, position by position, when no parameter is listed
    twice, no gradient is one of the parameters, and the tensors that meet
    at a position have one shape. *)
Lemma step_positions w gradients :
  state_ok w → shaped w →
  NoDup (param_group (self w)) →
  length (param_group (self w)) = length gradients →
  (∀ g, Some g ∈ gradients → g ∉ param_group (self w)) →
  let cfg := defaults (self w) in
  let c := centered (self w) in
  let present := with_grad (zip (param_group (self w)) gradients) in
  (∀ j p pg, param_group (self w) !! j = Some p → present !! j = Some pg →
     length (buffers w p) = length (buffers w pg.1)
     ∧ length (buffers w pg.2) = length (buffers w pg.1)) →
  let w' := after gradients w in
  (step gradients w).1
  = (if decide (length (param_group (self w)) ≤ length present)
     then inr tt else inl IndexError)
  ∧ (∀ j p pg, param_group (self w) !! j = Some p →
       present !! j = Some pg →
       let new := update_one cfg c (buffers w p) (record_at_update w pg.1)
                    (buffers w pg.2) in
       buffers w' p = new.1 ∧ state (self w') !! pg.1 = Some new.2)
  ∧ (∀ j p, param_group (self w) !! j = Some p → length present ≤ j →
       buffers w' p = buffers w p).
Proof.
  intros Hok Hsh Hnd Hlen Hsep. cbv zeta. intros Hshape. unfold after.
  rewrite step_eq by done. cbv zeta. rewrite push_pairs_lists. unfold rmsprop.
  set (ps := param_group (self w)) in *.
  set (pairs := zip ps gradients) in *.
  set (st := foldl _ _ _).
  assert (Hfst : NoDup pairs.*1).
  { unfold pairs. rewrite fst_zip; [done|lia]. }
  assert (Hrec : ∀ o g, (o, g) ∈ with_grad pairs →
            st !! o = Some (record_at_update w o)).
  { intros o g Hin. apply with_grad_elem in Hin.
    unfold st. rewrite (visit_pairs_once _ _ _ _ _ o g) by done.
    by rewrite visited_lookup, decide_True. }
  assert (Hbufs : ∀ q, buffers (set_state st w) q = buffers w q) by done.
  match goal with
  | |- context [rmsprop_from 0 _ ?g1 ?s1 ?a1 ?b1 _ _ _ _ _ _ ?w1] =>
      destruct (rmsprop_from_positions (defaults (self w)) (centered (self w))
                  g1 s1 a1 b1 ps (with_grad pairs).*1 0 w1 Hnd)
        as (Hout & Hupd & Hbuf & _)
  end.
  - by apply with_grad_NoDup.
  - simpl. by rewrite !length_fmap.
  - intros o Hin. apply list_elem_of_fmap in Hin as ([o' g] & -> & Hin).
    simpl. rewrite (Hrec _ _ Hin). by eexists.
  - intros j o Hj. rewrite list_lookup_fmap in Hj. simpl.
    destruct (with_grad pairs !! j) as [[o' g]|] eqn:E; [|done].
    injection Hj as <-. rewrite !list_lookup_fmap, E. simpl.
    split_and!; [done| |].
    + intros ->. by rewrite list_lookup_fmap, E.
    + intros ->. by rewrite list_lookup_fmap, E.
  - intros j g _ Hg. simpl in Hg. apply list_elem_of_lookup_2 in Hg.
    apply list_elem_of_fmap in Hg as ([o g'] & -> & Hin). simpl.
    apply with_grad_elem in Hin. apply Hsep.
    by apply elem_of_zip_r in Hin.
  - intros j p o g Hp Ho Hg. simpl in Hg.
    rewrite list_lookup_fmap in Ho, Hg.
    destruct (with_grad pairs !! j) as [[o' g']|] eqn:E; [|done].
    simpl in Ho, Hg. injection Ho as ->. injection Hg as ->.
    destruct (Hshape j p (o, g) Hp E) as [Lp Lg]. simpl in Lp, Lg.
    assert (Hin : (o, Some g) ∈ pairs).
    { apply with_grad_elem. by eapply list_elem_of_lookup_2. }
    destruct (loop_world_shapes w pairs o g Hok Hsh Hin)
      as (_ & Ls & Lc & Lm).
    rewrite !Hbufs. split_and!; [congruence|..].
    + unfold st. rewrite Ls. congruence.
    + intros Hc'. unfold st. rewrite (Lc Hc'). congruence.
    + intros Hm'. unfold st. rewrite (Lm Hm'). congruence.
  - split_and!.
    + rewrite Hout. apply decide_ext. by rewrite length_fmap.
    + intros j p [o g] Hp Hj. simpl.
      apply (Hupd j p o g); [done| | |].
      * by rewrite list_lookup_fmap, Hj.
      * simpl. by rewrite list_lookup_fmap, Hj.
      * simpl. apply (Hrec o g). by eapply list_elem_of_lookup_2.
    + intros j p Hp Hj. rewrite Hbuf; [done|].
      rewrite length_fmap. intros (k & Hk & Hkj)%elem_of_take.
      assert (k = j) by (by apply (NoDup_lookup ps k j p)). lia.
Qed.

Lemma all_present (gradients : list (option ident)) :
  Forall is_Some gradients → ∃ gs, gradients = Some <$> gs.
Proof.
  induction 1 as [|o l [g ->] _ [gs ->]]; [by exists []|]. by exists (g :: gs).
Qed.

Lemma step_returns w gradients :
  state_ok w → shaped w →
  length (param_group (self w)) = length gradients →
  Forall is_Some gradients →
  (∀ j p g, param_group (self w) !! j = Some p →
     gradients !! j = Some (Some g) →
     length (buffers w g) = length (buffers w p)) →
  (step gradients w).1 = inr tt.
Proof.
  intros Hok Hsh Hlen Hall Hshape.
  destruct (all_present gradients Hall) as [gs ->].
  rewrite length_fmap in Hlen.
  rewrite step_eq by (done || by rewrite length_fmap).
  cbv zeta. rewrite push_pairs_lists, with_grad_all. unfold rmsprop.
  set (ps := param_group (self w)) in *.
  set (pairs := zip ps (Some <$> gs)).
  set (w' := set_state _ w).
  assert (Hzip : ∀ j p, ps !! j = Some p →
            ∃ g, gs !! j = Some g ∧ zip ps gs !! j = Some (p, g)).
  { intros j p Hp. destruct (lookup_lt_is_Some_2 gs j) as [g Hg].
    { rewrite <-Hlen. by eapply lookup_lt_Some. }
    exists g. split; [done|]. by apply lookup_zip_Some. }
  apply (rmsprop_from_returns (λ _, True) w'); [apply writes_nil|done|].
  intros j p Hp. destruct (Hzip j p Hp) as (g & Hg & Hz).
  assert (Hin : (p, Some g) ∈ pairs).
  { apply (list_elem_of_lookup_2 _ j). apply lookup_zip_Some.
    by rewrite list_lookup_fmap, Hg. }
  destruct (loop_world_shapes w pairs p g Hok Hsh Hin) as (_ & Ls & Lc & Lm).
  exists g. simpl. rewrite !list_lookup_fmap, Hz. simpl.
  split_and!; try done.
  - intros ->. by rewrite list_lookup_fmap, Hz.
  - intros ->. by rewrite list_lookup_fmap, Hz.
  - apply (Hshape j p g Hp). by rewrite list_lookup_fmap, Hg.
Qed.

(** X2: on an optimizer in use, a call of [step] with one present gradient
    for every parameter, each of the shape of its parameter, returns
    normally. A parameter may be listed twice and a gradient may be one of
    the parameters. *)
Theorem step_returns_with_all_gradients w gradients :
  reachable w →
  length (param_group (self w)) = length gradients →
  Forall is_Some gradients →
  (∀ j p g, param_group (self w) !! j = Some p →
     gradients !! j = Some (Some g) →
     length (buffers w g) = length (buffers w p)) →
  (step gradients w).1 = inr tt.
Proof.
  intros (Hok & Hsh & _)%reachable_ok. by apply step_returns.
Qed.

(** ** One parameter *)

Lemma after_buffers_other w gradients q :
  state_ok w → q ∉ param_group (self w) →
  buffers (after gradients w) q = buffers w q.
Proof.
  intros Hok Hq.
  destruct (decide (length (param_group (self w)) = length gradients))
    as [Hlen|Hlen]; [|by rewrite after_mismatch].
  pose proof (step_writes w gradients Hok Hlen) as Hw. simpl in Hw.
  apply writes_buffers_frame with (q := q) in Hw; [exact Hw|].
  intros r [Hr|Hr] ->.
  - apply list_elem_of_fmap in Hr as (p & [= <-] & Hp). done.
  - apply push_pairs_refs in Hr as [Hr|(? & ? & ? & _ & [=] & _)].
    by apply elem_of_nil in Hr.
Qed.


(** A call on an optimizer of one parameter, with a gradient of its shape
    that is another tensor. *)
Lemma step_single w p g :
  state_ok w → shaped w →
  param_group (self w) = [p] → g ≠ p →
  length (buffers w g) = length (buffers w p) →
  let new := update_one (defaults (self w)) (centered (self w))
               (buffers w p) (record_at_update w p) (buffers w g) in
  let w' := after [Some g] w in
  (step [Some g] w).1 = inr tt
  ∧ buffers w' p = new.1
  ∧ state (self w') !! p = Some new.2
  ∧ buffers w' g = buffers w g.
Proof.
  intros Hok Hsh Hp Hne Hlen. cbv zeta.
  destruct (step_positions w [Some g] Hok Hsh) as (Hout & Hupd & _).
  { rewrite Hp. apply NoDup_singleton. }
  { by rewrite Hp. }
  { intros g' Hg'. apply list_elem_of_singleton in Hg'. injection Hg' as ->.
    rewrite Hp. by intros ?%list_elem_of_singleton. }
  { rewrite Hp. intros [|j] q pg; simpl; [|done]. by intros [= <-] [= <-]. }
  rewrite Hp in Hout, Hupd. simpl in Hout.
  destruct (Hupd 0 p (p, g) eq_refl eq_refl) as [Hb Hs]. simpl in Hb, Hs.
  split_and!; [done..|].
  apply after_buffers_other; [done|].
  rewrite Hp. by intros ?%list_elem_of_singleton.
Qed.

(** The parts of [update_one]. *)
Lemma update_one_square_avg (cfg : Defaults A) (c : bool) x d gv :
  is_Some (d !! "square_avg") →
  (update_one cfg c x d gv).2 !! "square_avg"
  = Some (Buffer (next_square_avg (alpha cfg) (buffer_of (d !! "square_avg"))
                    (effective_gradient (weight_decay cfg) gv x))).
Proof.
  intros [v Hv]. unfold update_one. cbv zeta.
  destruct (num_gt0 (momentum cfg)), c; simpl;
    rewrite ?lookup_alter_ne by done; by rewrite lookup_alter_eq, Hv.
Qed.


Lemma update_one_plain (cfg : Defaults A) (c : bool) x d gv :
  num_gt0 (momentum cfg) = false →
  let grad := effective_gradient (weight_decay cfg) gv x in
  let sq := next_square_avg (alpha cfg) (buffer_of (d !! "square_avg")) grad in
  let ga := next_grad_avg (alpha cfg) (buffer_of (d !! "grad_avg")) grad in
  let avg := if c then centered_normalizer (eps cfg) sq ga
             else normalizer (eps cfg) sq in
  (update_one cfg c x d gv).1 = plain_update (lr cfg) x grad avg.
Proof.
  intros Hm. unfold update_one. cbv zeta. rewrite Hm.
  destruct c; simpl; by rewrite ?lookup_alter_ne by done.
Qed.

Lemma record_at_update_lookup w p key :
  key ≠ "step" →
  record_at_update w p !! key
  = default (fresh_record (momentum (defaults (self w))) (centered (self w))
               (buffers w p)) (state (self w) !! p) !! key.
Proof. intros Hkey. unfold record_at_update. by rewrite lookup_insert_ne. Qed.

Lemma record_at_update_shapes w p :
  state_ok w → shaped w →
  let d := record_at_update w p in
  let n := length (buffers w p) in
  is_Some (d !! "square_avg")
  ∧ length (buffer_of (d !! "square_avg")) = n
  ∧ (centered (self w) = true → length (buffer_of (d !! "grad_avg")) = n)
  ∧ (num_gt0 (momentum (defaults (self w))) = true →
     is_Some (d !! "momentum_buffer")
     ∧ length (buffer_of (d !! "momentum_buffer")) = n).
Proof.
  intros Hok Hsh. cbv zeta. rewrite !record_at_update_lookup by done.
  destruct (state (self w) !! p) as [d|] eqn:Hd; simpl.
  - destruct (Hok p d Hd) as (_ & [sq Hsq] & Hm & Hc).
    assert (Hkey : ∀ key, key ≠ "step" → is_Some (d !! key) →
              length (buffer_of (d !! key)) = length (buffers w p)).
    { intros key Hkey [v Hv]. rewrite Hv.
      by destruct (Hsh p d key v Hd Hv Hkey) as (t & -> & Ht). }
    split_and!.
    + by eexists.
    + apply Hkey; [done|by eexists].
    + intros Hc'. apply Hkey; [done|by apply Hc].
    + intros Hm'. split; [by apply Hm|]. apply Hkey; [done|by apply Hm].
  - destruct (fresh_record_lookup (momentum (defaults (self w)))
                (centered (self w)) (buffers w p)) as (_ & Hq & Hm & Hc & _).
    destruct (zeros_like_spec (buffers w p)) as [Hz _].
    rewrite Hq, Hm, Hc. simpl. split_and!; [by eexists|done| |].
    + by intros ->.
    + intros ->. split; [by eexists|done].
Qed.

End Properties.

(** * Exact arithmetic *)

Section Exact.
Local Open Scope R_scope.
Implicit Types (w : world R) (d : gmap string (entry R)) (p q g : ident).

Lemma real_gt0_false (x : R) : x <= 0 → num_gt0 x = false.
Proof. intros Hx. simpl. destruct (Rlt_dec 0 x); [lra|done]. Qed.


Lemma real_ne0_zero : num_ne0 0 = false.
Proof. simpl. destruct (Req_dec_T 0 0); [done|lra]. Qed.

Lemma sqrt_004 : R_sqrt.sqrt 0.04 = 0.2.
Proof. apply sqrt_lem_1; lra. Qed.

Lemma fresh_world_ok (o : FunctionalRMSprop R) bufs :
  state o = ∅ →
  state_ok {| self := o; buffers := bufs |}
  ∧ shaped {| self := o; buffers := bufs |}.
Proof.
  intros Hst. split.
  - intros p d. simpl. by rewrite Hst, lookup_empty.
  - intros p d key v. simpl. by rewrite Hst, lookup_empty.
Qed.

(** C4: one scalar parameter 1.0, lr 0.01, alpha 0.99, eps 1e-8, no weight
    decay, no momentum, not centered, and a gradient tensor holding 2.0.
    After the first call square_avg is (1 - 0.99) * 4 = 0.04, the normalizer
    is sqrt(0.04) + 1e-8, within 1e-8 of 0.2, and the parameter is
    1 - 0.01 * 2 / (sqrt(0.04) + 1e-8), within 1e-8 of 0.9. *)
Theorem numerical_example :
  ∃ o, __init__ [1%positive] 0.01 0.99 1e-8 0 0 false = inr o
  ∧ let w := {| self := o;
                buffers := λ t, if decide (t = 1%positive) then [1] else [2] |} in
    let w' := after [Some 2%positive] w in
    let avg := R_sqrt.sqrt 0.04 + 1e-8 in
    (step [Some 2%positive] w).1 = inr tt
    ∧ state (self w') !! 1%positive ≫= (.!! "square_avg")
      = Some (Buffer [(1 - 0.99) * 4])
    ∧ (1 - 0.99) * 4 = 0.04
    ∧ normalizer 1e-8 [0.04] = [avg]
    ∧ Rabs (avg - 0.2) <= 1e-8
    ∧ buffers w' 1%positive = [1 - 0.01 * 2 / avg]
    ∧ Rabs (1 - 0.01 * 2 / avg - 0.9) <= 1e-8.
Proof.
  eexists. split; [rewrite init_cases; reflexivity|]. cbv zeta.
  set (w := {| self := _; buffers := _ |}).
  destruct (fresh_world_ok (self w) (buffers w) eq_refl) as [Hok Hsh].
  destruct (step_single w 1%positive 2%positive Hok Hsh eq_refl)
    as (Hret & Hbuf & Hst & _); [done..|].
  destruct (record_at_update_shapes w 1%positive Hok Hsh) as (Hsq & _).
  rewrite update_one_plain in Hbuf by apply (real_gt0_false 0), Rle_refl.
  match goal with
  | |- context [?m !! 1%positive ≫= _] =>
      replace (m !! 1%positive) with (Some (update_one (defaults (self w))
        (centered (self w)) (buffers w 1%positive)
        (record_at_update w 1%positive) (buffers w 2%positive)).2)
        by (symmetry; exact Hst)
  end.
  cbn [mbind option_bind].
  rewrite update_one_square_avg by done.
  cbv zeta in Hbuf.
  rewrite record_at_update_lookup in Hbuf |- * by done.
  change (state (self w) !! 1%positive) with (@None (gmap string (entry R)))
    in Hbuf |- *.
  cbn [default] in Hbuf |- *.
  destruct (fresh_record_lookup (momentum (defaults (self w)))
              (centered (self w)) (buffers w 1%positive)) as (_ & Hfr & _).
  rewrite Hfr in Hbuf |- *.
  change (centered (self w)) with false in Hbuf. cbv iota in Hbuf.
  change (weight_decay (defaults (self w))) with 0 in Hbuf |- *.
  unfold effective_gradient in Hbuf |- *. rewrite real_ne0_zero in Hbuf |- *.
  change (buffers w 2%positive) with [2] in Hbuf |- *.
  change (buffers w 1%positive) with [1] in Hbuf |- *.
  assert (Hsq0 : next_square_avg (alpha (defaults (self w)))
                   (buffer_of (Some (Buffer (zeros_like [1])))) [2]
                 = [(1 - 0.99) * 4]).
  { cbn. f_equal. lra. }
  rewrite Hsq0 in Hbuf |- *.
  assert (H004 : (1 - 0.99) * 4 = 0.04) by lra.
  split_and!; try done.
  - rewrite sqrt_004. apply Rabs_le. lra.
  - etrans; [exact Hbuf|]. rewrite H004. by cbn.
  - rewrite sqrt_004. apply Rabs_le. lra.
Qed.

(** ** The update of a call, read as mathematics *)

(** X7: in exact arithmetic, a call of [step] on an optimizer in use that
    brings a gradient for every parameter updates each parameter from its
    own tensors alone, provided that no parameter is listed twice, that no
    gradient is one of the parameters, and that every gradient has the
    shape of its parameter. The call returns, and the parameter in slot [j]
    ends with the contents and the state record that [update_one] computes
    from its contents before the call, the contents of its gradient, and its
    record after the loop (the record it had, or the freshly initialized
    one, with the counter incremented): the order of the slots and the
    other parameters do not enter. *)
Theorem step_updates_each_parameter w (gs : list ident) j p g :
  reachable w →
  NoDup (param_group (self w)) →
  length (param_group (self w)) = length gs →
  (∀ h, h ∈ gs → h ∉ param_group (self w)) →
  (∀ k q h, param_group (self w) !! k = Some q → gs !! k = Some h →
     length (buffers w h) = length (buffers w q)) →
  param_group (self w) !! j = Some p →
  gs !! j = Some g →
  let new := update_one (defaults (self w)) (centered (self w))
               (buffers w p) (record_at_update w p) (buffers w g) in
  let w' := after (Some <$> gs) w in
  (step (Some <$> gs) w).1 = inr tt
  ∧ buffers w' p = new.1
  ∧ state (self w') !! p = Some new.2.
Proof.
  intros (Hok & Hsh & _)%reachable_ok Hnd Hlen Hsep Hshape Hp Hg. cbv zeta.
  assert (Hzip : ∀ k q pg, param_group (self w) !! k = Some q →
            zip (param_group (self w)) gs !! k = Some pg →
            pg.1 = q ∧ gs !! k = Some pg.2).
  { intros k q [q' h] Hq [Hq' Hh]%lookup_zip_Some. simpl in *.
    split; [congruence|done]. }
  destruct (step_positions w (Some <$> gs) Hok Hsh Hnd) as (Hout & Hupd & _).
  - by rewrite length_fmap.
  - intros h Hh. apply Hsep.
    apply list_elem_of_fmap in Hh as (h' & [= <-] & Hh'). done.
  - rewrite with_grad_all. intros k q pg Hq Hpg.
    destruct (Hzip k q pg Hq Hpg) as [-> Hh]. split; [done|].
    by apply (Hshape k q pg.2).
  - rewrite with_grad_all in Hout, Hupd. split.
    + rewrite Hout. apply decide_True. rewrite length_zip. lia.
    + apply (Hupd j p (p, g) Hp). by apply lookup_zip_Some.
Qed.

(** X10: in exact arithmetic, how a call of [step] pairs parameters,
    gradients and state. On an optimizer in use whose parameter list has no
    repetition, let the present slots of the call be numbered in list order,
    let no gradient be one of the parameters, and let the parameter in slot
    [j], the parameter of the [j]-th present slot and its gradient have one
    shape. The parameter in slot [j] of the list is updated with the
    gradient of the [j]-th present slot and with the state record of that
    slot's parameter, which receives the new running averages; the
    parameters in slots beyond the number of present gradients keep their
    contents. When every gradient is present the two numberings agree; when
    one is absent, the slots after it are shifted. *)
Theorem step_pairs_by_position w gradients :
  reachable w →
  NoDup (param_group (self w)) →
  length (param_group (self w)) = length gradients →
  (∀ g, Some g ∈ gradients → g ∉ param_group (self w)) →
  let cfg := defaults (self w) in
  let c := centered (self w) in
  let present := with_grad (zip (param_group (self w)) gradients) in
  (∀ j p o g, param_group (self w) !! j = Some p →
     present !! j = Some (o, g) →
     length (buffers w p) = length (buffers w o)
     ∧ length (buffers w g) = length (buffers w o)) →
  let w' := after gradients w in
  (∀ j p o g, param_group (self w) !! j = Some p →
     present !! j = Some (o, g) →
     let new := update_one cfg c (buffers w p) (record_at_update w o)
                  (buffers w g) in
     buffers w' p = new.1 ∧ state (self w') !! o = Some new.2)
  ∧ (∀ j p, param_group (self w) !! j = Some p → length present ≤ j →
       buffers w' p = buffers w p).
Proof.
  intros (Hok & Hsh & _)%reachable_ok Hnd Hlen Hsep. cbv zeta. intros Hshape.
  destruct (step_positions w gradients Hok Hsh Hnd Hlen Hsep)
    as (_ & Hupd & Hrest).
  - intros j p [o g]. apply Hshape.
  - split; [|exact Hrest]. intros j p o g Hp Hj.
    apply (Hupd j p (o, g) Hp Hj).
Qed.

(** ** Two calls with one gradient *)










End Exact.

(** * Binary64 evaluation *)

Section Binary64.
Local Open Scope float_scope.

(** C1, the defect: with parameters [1; 2] and gradients [None; g], where the
    tensor [g] holds 2.0, [step] skips parameter 1 in its loop (no state
    record is created for it), but then hands the full parameter list to
    [F.rmsprop] next to the one gradient and the one square_avg it
    collected. Parameter 1, whose gradient is absent, is overwritten (1.0
    becomes 0.5) with the update meant for parameter 2; parameter 2 keeps
    its value 8.0; the call ends in an IndexError when [F.rmsprop] looks for
    a second gradient. *)
Theorem absent_gradient_parameter_written :
  let r := step [None; Some 4%positive] two_parameters in
  __init__ [1%positive; 2%positive] 0.5 0.75 1 0 0 false
    = inr (self two_parameters)
  ∧ buffers two_parameters 4%positive = [2]
  ∧ r.1 = inl IndexError
  ∧ state (self r.2) !! 1%positive = None
  ∧ buffers two_parameters 1%positive = [1]
  ∧ buffers r.2 1%positive = [0.5]
  ∧ buffers two_parameters 2%positive = [8]
  ∧ buffers r.2 2%positive = [8]
  ∧ counter r.2 2%positive = Some (Counter f32_one)
  ∧ buffers r.2 1%positive ≠ buffers two_parameters 1%positive.
Proof.
  cbv zeta. split_and!; by vm_compute.
Qed.

(** With both gradients present the same optimizer updates parameter 2 to
    7.5 and returns. *)
Example both_gradients_present :
  let r := step [Some 3%positive; Some 4%positive] two_parameters in
  r.1 = inr tt ∧ buffers r.2 2%positive = [7.5].
Proof. cbv zeta. split; by vm_compute. Qed.

(** The numerical example in binary64: square_avg and the parameter come
    out within rounding of 0.04 and 0.9. *)
Example numerical_example_binary64 :
  let w' := after [Some 4%positive] spec_example in
  state (self w') !! 1%positive ≫= (.!! "square_avg")
    = Some (Buffer [(1 - 99 / 100) * 4])
  ∧ (1 - 99 / 100) * 4 = 0x1.47ae147ae1480p-5
  ∧ buffers w' 1%positive = [0x1.ccccccf7bfea7p-1]
  ∧ PrimFloat.ltb (PrimFloat.abs (0x1.ccccccf7bfea7p-1 - 9 / 10)) (1 / 100000000)
    = true.
Proof. cbv zeta. split_and!; by vm_compute. Qed.

(** The step counter is a float32 scalar: the first increment that is lost
    is the one at 2^24. *)
Example counter_limit_float32 :
  f32_add (float32_of_Z 16777215) f32_one = float32_of_Z 16777216
  ∧ f32_add (float32_of_Z 16777216) f32_one = float32_of_Z 16777216
  ∧ float32_of_Z 16777217 = float32_of_Z 16777216.
Proof. split_and!; by vm_compute. Qed.

(** A gradient of one element is expanded to the shape of its parameter:
    the call returns and both elements move by the same amount. *)
Example gradient_of_one_element :
  let r := step [Some 3%positive; Some 5%positive] vectors in
  r.1 = inr tt
  ∧ buffers r.2 1%positive = [0.5; 1.5]
  ∧ state (self r.2) !! 1%positive ≫= (.!! "square_avg")
    = Some (Buffer [1; 1]).
Proof. cbv zeta. split_and!; by vm_compute. Qed.

(** A gradient of another shape than its parameter, two elements for three:
    the update raises at that parameter and leaves it as it was, after the
    loop has counted the call and the first parameter has been updated. *)
Example gradient_of_another_shape :
  let r := step [Some 3%positive; Some 4%positive] vectors in
  r.1 = inl RuntimeError
  ∧ buffers r.2 1%positive = [0.5; 1.5]
  ∧ buffers r.2 2%positive = [1; 2; 3]
  ∧ counter r.2 2%positive = Some (Counter f32_one).
Proof. cbv zeta. split_and!; by vm_compute. Qed.

(** C7 as stated does not hold: with a parameter listed twice, one call that
    returns increments the counter of that parameter twice. The counter
    holds 2 after one call with a present gradient for the parameter. *)
Lemma counter_counts_slots :
  let calls := [[Some 3%positive; Some 4%positive]] in
  param_group (self repeated_parameter) = [1%positive; 1%positive]
  ∧ (step [Some 3%positive; Some 4%positive] repeated_parameter).1 = inr tt
  ∧ calls_present 1%positive [1%positive; 1%positive] calls = 1%nat
  ∧ counter (run calls repeated_parameter) 1%positive
    = Some (Counter (float32_of_Z 2))
  ∧ float32_value (float32_of_Z 2) = Some 2%Z
  ∧ counter (run calls repeated_parameter) 1%positive
    ≠ Some (Counter (float32_of_Z
                       (Z.of_nat (calls_present 1%positive
                                    [1%positive; 1%positive] calls)))).
Proof. cbv zeta. split_and!; by vm_compute. Qed.



End Binary64.

(** * Instances of the theorems *)

Section Instances.
Local Open Scope float_scope.

Lemma two_parameters_reachable : reachable two_parameters.
Proof.
  exists [1%positive; 2%positive], 0.5, 0.75, 1, 0, 0, false,
    (self two_parameters), (buffers two_parameters), [].
  split; reflexivity.
Qed.

Lemma not_in_two (q : positive) :
  q ≠ 1%positive → q ≠ 2%positive → q ∉ [1%positive; 2%positive].
Proof.
  intros H1 H2 [->|Hin%list_elem_of_singleton]%elem_of_cons; done.
Qed.

Lemma step_length_mismatch_instance :
  length [Some 4%positive] ≠ length (param_group (self two_parameters))
  ∧ step [Some 4%positive] two_parameters =
    (inl (ValueError (mismatch_message 2%nat 1%nat)), two_parameters).
Proof.
  assert (Hlen : length [Some 4%positive]
                 ≠ length (param_group (self two_parameters)))
    by (simpl; lia).
  split; [exact Hlen|].
  exact (step_length_mismatch two_parameters [Some 4%positive] Hlen).
Defined.

Lemma init_no_validation_instance :
  [1%positive] ≠ []
  ∧ ∃ o, __init__ [1%positive] (-1) 2 (-3) (-4) (-5) true = inr o
         ∧ defaults o = {| lr := -1; alpha := 2; eps := -3;
                           weight_decay := -4; momentum := -5 |}
         ∧ param_group o = [1%positive].
Proof.
  assert (Hne : [1%positive] ≠ []) by discriminate.
  split; [exact Hne|].
  exact (proj1 (init_no_validation [1%positive] (-1) 2 (-3) (-4) (-5) true Hne)).
Defined.

Lemma lazy_state_initialization_instance :
  let gradients := [Some 3%positive; Some 4%positive] in
  let first := two_parameters in
  let second := after gradients two_parameters in
  (reachable first
   ∧ zip (param_group (self first)) gradients
     = [(1%positive, Some 3%positive)] ++ [(2%positive, Some 4%positive)]
   ∧ ∃ l1 w1 l2 w2 created,
       loop_body 0 2%positive (Some 4%positive) l1 w1 = (inr l2, w2)
       ∧ state (self w1) !! 2%positive = None
       ∧ created !! "step" = Some (Counter f32_zero)
       ∧ created !! "square_avg" = Some (Buffer [0])
       ∧ created !! "momentum_buffer" = None
       ∧ created !! "grad_avg" = None
       ∧ state (self w2)
         = <[2%positive := <["step" := Counter f32_one]> created]>
             (state (self w1)))
  ∧ (reachable second
     ∧ state (self second) !! 2%positive
       = Some {[ "step" := Counter f32_one; "square_avg" := Buffer [1] ]}
     ∧ ∃ l1 w1 l2 w2 d n,
         loop_body 0 2%positive (Some 4%positive) l1 w1 = (inr l2, w2)
         ∧ state (self w1) !! 2%positive = Some d
         ∧ d !! "step" = Some n
         ∧ state (self w2)
           = <[2%positive := <["step" := add_one n]> d]> (state (self w1))).
Proof.
  cbv zeta.
  set (gradients := [Some 3%positive; Some 4%positive]).
  assert (Hzip : zip [1%positive; 2%positive] gradients
                 = [(1%positive, Some 3%positive)]
                   ++ (2%positive, Some 4%positive) :: []) by reflexivity.
  pose proof (reachable_after two_parameters gradients
                two_parameters_reachable) as Hsecond.
  split.
  - split; [exact two_parameters_reachable|]. split; [reflexivity|].
    destruct (lazy_state_initialization two_parameters gradients
                [(1%positive, Some 3%positive)] 2%positive 4%positive []
                two_parameters_reachable eq_refl Hzip)
      as (l1 & w1 & l2 & w2 & _ & Hbody & _ & Hnone & Hcreate & _).
    assert (Hw1 : state (self w1) !! 2%positive = None).
    { apply Hnone. split; [reflexivity|].
      intros g' [[=]|Hin]%elem_of_cons. by apply elem_of_nil in Hin. }
    destruct (Hcreate Hw1)
      as (created & Hs & Hq & Hm & Hc & _ & _ & _ & Hst).
    exists l1, w1, l2, w2, created.
    split_and!; [exact Hbody|exact Hw1|exact Hs|exact Hq|exact Hm|exact Hc
                |exact Hst].
  - split; [exact Hsecond|]. split; [by vm_compute|].
    destruct (lazy_state_initialization (after gradients two_parameters)
                gradients [(1%positive, Some 3%positive)] 2%positive
                4%positive [] Hsecond eq_refl Hzip)
      as (l1 & w1 & l2 & w2 & _ & Hbody & _ & Hnone & _ & Hreuse).
    destruct (state (self w1) !! 2%positive) as [d|] eqn:Hd.
    + destruct (Hreuse d Hd) as (n & Hn & Hst).
      exists l1, w1, l2, w2, d, n.
      split_and!; [exact Hbody|exact Hd|exact Hn|exact Hst].
    + exfalso. destruct (proj1 Hnone Hd) as [Habs _].
      by vm_compute in Habs.
Defined.

Lemma state_record_keys_instance :
  let st := state (self (run [[Some 3%positive; Some 4%positive]]
                           with_momentum)) in
  let d := default ∅ (st !! 1%positive) in
  st !! 1%positive = Some d
  ∧ (is_Some (d !! "momentum_buffer") ↔ num_gt0 0.5 = true)
  ∧ (is_Some (d !! "grad_avg") ↔ true = true).
Proof.
  intros st d.
  assert (E : st !! 1%positive = Some d) by (vm_compute; reflexivity).
  split; [exact E|].
  exact (state_record_keys [1%positive; 2%positive] 0.5 0.75 1 0 0.5 true
           (self with_momentum) (buffers with_momentum)
           [[Some 3%positive; Some 4%positive]] 1%positive d eq_refl E).
Defined.

Lemma step_counter_counts_instance :
  let calls := [[None; Some 4%positive];
                [Some 3%positive; Some 4%positive];
                [Some 3%positive]] in
  NoDup [1%positive; 2%positive]
  ∧ counter (run calls two_parameters) 2%positive
    = Some (Counter (float32_of_Z 2))
  ∧ float32_value (float32_of_Z 2) = Some 2%Z
  ∧ hits 2%positive [1%positive; 2%positive] calls = 2%nat
  ∧ calls_present 2%positive [1%positive; 2%positive] calls = 2%nat.
Proof.
  intros calls.
  destruct (step_counter_counts [1%positive; 2%positive] 0.5 0.75 1 0 0 false
              (self two_parameters) (buffers two_parameters) calls 2%positive
              eq_refl) as (Hcount & Hvalue & Hcalls).
  assert (Hnd : NoDup [1%positive; 2%positive]).
  { apply NoDup_cons. split; [|apply NoDup_singleton].
    intros Hin%list_elem_of_singleton. discriminate. }
  split_and!; [exact Hnd|exact Hcount|exact Hvalue|reflexivity|].
  rewrite <-(Hcalls Hnd). reflexivity.
Defined.


Lemma loop_collects_present_gradients_instance :
  reachable two_parameters
  ∧ (for_each 0 [(1%positive, None); (2%positive, Some 4%positive)] no_locals
       two_parameters).1
    = inr {| grads := [4%positive];
             square_avgs := [Slot 2%positive "square_avg"];
             grad_avgs := []; momentum_buffer_list := [] |}.
Proof.
  split; [exact two_parameters_reachable|].
  exact (loop_collects_present_gradients two_parameters
           [(1%positive, None); (2%positive, Some 4%positive)]
           two_parameters_reachable).
Defined.

Lemma step_returns_with_all_gradients_instance :
  let gradients := [Some 3%positive; Some 4%positive] in
  reachable two_parameters
  ∧ length (param_group (self two_parameters)) = length gradients
  ∧ Forall is_Some gradients
  ∧ (step gradients two_parameters).1 = inr tt.
Proof.
  intros gradients.
  assert (Hall : Forall is_Some gradients)
    by (repeat constructor; by eexists).
  assert (Hshape : ∀ j p g,
            param_group (self two_parameters) !! j = Some p →
            gradients !! j = Some (Some g) →
            length (buffers two_parameters g)
            = length (buffers two_parameters p)).
  { intros [|[|j]] p g; simpl; try done; by intros [= <-] [= <-]. }
  split_and!; [exact two_parameters_reachable|reflexivity|exact Hall|].
  exact (step_returns_with_all_gradients two_parameters gradients
           two_parameters_reachable eq_refl Hall Hshape).
Defined.

Lemma step_raises_on_absent_gradient_instance :
  let gradients := [None; Some 4%positive] in
  Exists (λ o, o = None) gradients
  ∧ ((step gradients two_parameters).1 = inl IndexError
     ∨ (step gradients two_parameters).1 = inl RuntimeError)
  ∧ (step gradients two_parameters).1 = inl IndexError
  ∧ counter (after gradients two_parameters) 2%positive
    = Some (Counter f32_one).
Proof.
  intros gradients.
  assert (Hex : Exists (λ o, o = None) gradients) by (by left).
  destruct (step_raises_on_absent_gradient two_parameters gradients
              two_parameters_reachable eq_refl Hex) as [Hout Hcnt].
  split_and!; [exact Hex|exact Hout|by vm_compute|].
  rewrite Hcnt. reflexivity.
Defined.

Lemma step_touches_only_parameters_instance :
  let gradients := [Some 3%positive; Some 4%positive] in
  (4%positive ∉ param_group (self two_parameters))
  ∧ buffers (after gradients two_parameters) 4%positive = [2]
  ∧ state (self (after gradients two_parameters)) !! 4%positive = None.
Proof.
  intros gradients.
  assert (Hq : 4%positive ∉ param_group (self two_parameters))
    by (by apply not_in_two).
  destruct (step_touches_only_parameters two_parameters gradients 4%positive
              two_parameters_reachable Hq) as [Hb Hs].
  split_and!; [exact Hq|exact Hb|exact Hs].
Defined.

Lemma state_records_persist_instance :
  let gradients := [None; Some 4%positive] in
  is_Some (state (self (after gradients two_parameters)) !! 2%positive)
  ∧ ¬ is_Some (state (self (after gradients two_parameters)) !! 1%positive).
Proof.
  intros gradients. split.
  - apply (state_records_persist two_parameters gradients 2%positive
             two_parameters_reachable).
    right. split; [reflexivity|]. right. left. split; [reflexivity|by eexists].
  - intros Hsome.
    apply (state_records_persist two_parameters gradients 1%positive
             two_parameters_reachable) in Hsome.
    destruct Hsome as [[d Hd]|[_ Hex]]; [discriminate|].
    apply Exists_cons in Hex as [[_ [? [=]]]|Hex].
    apply Exists_cons in Hex as [[[=] _]|Hex].
    by apply Exists_nil in Hex.
Defined.

Lemma configuration_is_immutable_instance :
  let w := run [[None; Some 4%positive];
                [Some 3%positive; Some 4%positive]; []] two_parameters in
  defaults (self w) = defaults (self two_parameters)
  ∧ centered (self w) = false
  ∧ param_group (self w) = [1%positive; 2%positive].
Proof.
  exact (configuration_is_immutable [1%positive; 2%positive] 0.5 0.75 1 0 0
           false (self two_parameters) (buffers two_parameters)
           [[None; Some 4%positive]; [Some 3%positive; Some 4%positive]; []]
           eq_refl).
Defined.

Lemma all_gradients_absent_instance :
  Forall (λ o : option ident, o = None) [None; None]
  ∧ step [None; None] two_parameters = (inl IndexError, two_parameters).
Proof.
  assert (Hnone : Forall (λ o : option ident, o = None) [None; None])
    by (repeat constructor).
  split; [exact Hnone|].
  exact (all_gradients_absent two_parameters [None; None]
           two_parameters_reachable eq_refl Hnone).
Defined.

Lemma absent_gradient_leaves_record_instance :
  state (self (after [None; Some 4%positive] two_parameters)) !! 1%positive
  = state (self two_parameters) !! 1%positive.
Proof.
  apply (absent_gradient_leaves_record two_parameters
           [None; Some 4%positive] 1%positive two_parameters_reachable).
  intros [|[|j]] Hj; [reflexivity|discriminate|discriminate].
Defined.

End Instances.

(** * Instances in exact arithmetic *)

Section ExactInstances.
Local Open Scope R_scope.

Lemma real_parameters_reachable : reachable real_parameters.
Proof.
  exists [1%positive; 2%positive], 0.5, 0.75, 1, 0, 0, false,
    (self real_parameters), (buffers real_parameters), [].
  split; reflexivity.
Qed.

Lemma real_parameters_NoDup : NoDup (param_group (self real_parameters)).
Proof.
  change (NoDup [1%positive; 2%positive]).
  apply NoDup_cons. split; [|apply NoDup_singleton].
  by intros [=]%list_elem_of_singleton.
Qed.


Lemma step_updates_each_parameter_instance :
  let gs := [3%positive; 4%positive] in
  let new := update_one (defaults (self real_parameters)) false
               [8] (record_at_update real_parameters 2%positive) [2] in
  reachable real_parameters
  ∧ NoDup (param_group (self real_parameters))
  ∧ length (param_group (self real_parameters)) = length gs
  ∧ (∀ h, h ∈ gs → h ∉ param_group (self real_parameters))
  ∧ (step (Some <$> gs) real_parameters).1 = inr tt
  ∧ buffers (after (Some <$> gs) real_parameters) 2%positive = new.1
  ∧ state (self (after (Some <$> gs) real_parameters)) !! 2%positive
    = Some new.2.
Proof.
  intros gs new.
  assert (Hsep : ∀ h, h ∈ gs → h ∉ param_group (self real_parameters)).
  { intros h [->|Hh%list_elem_of_singleton]%elem_of_cons; [|subst h];
      by intros [[=]|[=]%list_elem_of_singleton]%elem_of_cons. }
  assert (Hshape : ∀ k q h,
            param_group (self real_parameters) !! k = Some q →
            gs !! k = Some h →
            length (buffers real_parameters h)
            = length (buffers real_parameters q)).
  { intros [|[|k]] q h; simpl; try done; by intros [= <-] [= <-]. }
  split_and!; [exact real_parameters_reachable|exact real_parameters_NoDup
              |reflexivity|exact Hsep|..];
    apply (step_updates_each_parameter real_parameters gs 1%nat 2%positive
             4%positive real_parameters_reachable real_parameters_NoDup
             eq_refl Hsep Hshape eq_refl eq_refl).
Defined.

Lemma step_pairs_by_position_instance :
  let gradients := [None; Some 4%positive] in
  let new := update_one (defaults (self real_parameters)) false
               [1] (record_at_update real_parameters 2%positive) [2] in
  with_grad (zip (param_group (self real_parameters)) gradients)
  = [(2%positive, 4%positive)]
  ∧ (∀ g, Some g ∈ gradients → g ∉ param_group (self real_parameters))
  ∧ buffers (after gradients real_parameters) 1%positive = new.1
  ∧ state (self (after gradients real_parameters)) !! 2%positive = Some new.2
  ∧ buffers (after gradients real_parameters) 2%positive = [8].
Proof.
  intros gradients new.
  assert (Hsep : ∀ g, Some g ∈ gradients →
                      g ∉ param_group (self real_parameters)).
  { intros g [[=]|[= ->]%list_elem_of_singleton]%elem_of_cons.
    by intros [[=]|[=]%list_elem_of_singleton]%elem_of_cons. }
  assert (Hshape : ∀ j p o g,
            param_group (self real_parameters) !! j = Some p →
            with_grad (zip (param_group (self real_parameters)) gradients) !! j
            = Some (o, g) →
            length (buffers real_parameters p)
            = length (buffers real_parameters o)
            ∧ length (buffers real_parameters g)
              = length (buffers real_parameters o)).
  { intros [|j] p o g; simpl; [|done]. by intros [= <-] [= <- <-]. }
  destruct (step_pairs_by_position real_parameters gradients
              real_parameters_reachable real_parameters_NoDup eq_refl
              Hsep Hshape) as [Hupd Hrest].
  destruct (Hupd 0%nat 1%positive 2%positive 4%positive eq_refl eq_refl)
    as [Hb Hs].
  split_and!; [reflexivity|exact Hsep|exact Hb|exact Hs|].
  apply (Hrest 1%nat 2%positive eq_refl). simpl. lia.
Defined.

End ExactInstances.
